(** * Tic-tac-toe: a shallow embedding of [game.js] and its verification

    The development follows the source file section by section: the board
    and the rules engine ([WINNING_LINES], [checkWin], [isDraw]), the three
    move-selection routines ([aiRandomMove], [aiDifficultMove] with
    [limitedMinimaxScore], [aiMinimaxMove] with [minimax]), and the session
    ([startGame], [humanMove], [makeMove], [aiMakeMove]) together with the
    queue of callbacks registered through [setTimeout].

    Conventions.
    - A JavaScript array cell holding ['X'], ['O'] or [null] is an
      [option Mark]; reading an array at an index is stdpp's list lookup, so
      that [None] is JavaScript's [undefined], [Some None] is [null] and
      [Some (Some m)] is a mark.
    - The search routines mutate the array they are given.  They are written
      in state-passing style: they take the board and return the board they
      leave behind together with their result.
    - Recursion that is not structural carries a fuel argument; the entry
      points fix the fuel to 10 (nine cells and one more call for the leaf)
      and are proved to return.
    - [Math.floor(Math.random()*n)] is [randomBelow rnd n] for an arbitrary
      natural [rnd], which ranges over exactly the values [0 .. n-1]. *)

From Stdlib Require Import ZArith Lia Bool String.
From stdpp Require Import base list.

Local Open Scope Z_scope.

(** ** Marks, cells, indices *)

Inductive Mark : Type := X | O.

Definition Mark_eqb (a b : Mark) : bool :=
  match a, b with
  | X, X | O, O => true
  | _, _ => false
  end.

(** [(m === 'X') ? 'O' : 'X'] *)
Definition otherMark (m : Mark) : Mark :=
  match m with X => O | O => X end.

Definition markString (m : Mark) : string :=
  match m with X => "X"%string | O => "O"%string end.

(** The array of nine cells.  An abbreviation rather than a definition, so
    that the list lemmas rewrite without unfolding. *)
Abbreviation Board := (list (option Mark)).

(** What [board[i]] evaluates to: [None] is [undefined]. *)
Abbreviation Read := (option (option Mark)).

(** The values the source uses as a cell index: a number, [null]
    ([aiRandomMove] on a full board) or [undefined] (the [index] field of a
    leaf result of [minimax]). *)
Inductive Index : Type :=
| IUndefined
| INull
| INum (n : Z).

(** [board[i]] for a number [i]; a negative index names no element. *)
Definition cellAt (board : Board) (i : Z) : Read :=
  if i <? 0 then None else board !! Z.to_nat i.

(** [board[idx]] for any index value: the properties ["null"] and
    ["undefined"] of an array do not exist. *)
Definition readAt (board : Board) (idx : Index) : Read :=
  match idx with
  | INum n => cellAt board n
  | INull | IUndefined => None
  end.

(** [v === null] *)
Definition isNull (v : Read) : bool :=
  match v with
  | Some None => true
  | _ => false
  end.

(** Truthiness of a read: a mark is a non-empty string, [null] and
    [undefined] are falsy. *)
Definition truthy (v : Read) : bool :=
  match v with
  | Some (Some _) => true
  | _ => false
  end.

(** [v === w] on reads. *)
Definition strictEq (v w : Read) : bool :=
  match v, w with
  | None, None => true
  | Some None, Some None => true
  | Some (Some a), Some (Some b) => Mark_eqb a b
  | _, _ => false
  end.

(** [board[i] = v].  Every assignment of the source is guarded by
    [board[i] === null], which holds only inside the array, so the
    out-of-range behaviour of the assignment (JavaScript would extend the
    array, stdpp leaves the list alone) is never exercised. *)
Definition write (board : Board) (i : nat) (v : option Mark) : Board :=
  <[i := v]> board.

(** [Array(9).fill(null)] *)
Definition emptyBoard : Board := replicate 9 None.

(** ** Rules engine *)

Definition Line : Type := (nat * nat * nat)%type.

Definition WINNING_LINES : list Line :=
  [ (0, 1, 2); (3, 4, 5); (6, 7, 8)      (* rows *)
  ; (0, 3, 6); (1, 4, 7); (2, 5, 8)      (* cols *)
  ; (0, 4, 8); (2, 4, 6) ]%nat.          (* diagonals *)

Record WinInfo : Type := mkWin { winner : Mark; line : Line }.

(** The test of the loop body of [checkWin]:
    [board[a] && board[a] === board[b] && board[a] === board[c]],
    returning [board[a]] when it holds. *)
Definition lineWinner (board : Board) (l : Line) : option Mark :=
  let '(a, b, c) := l in
  if truthy (board !! a)
     && strictEq (board !! a) (board !! b)
     && strictEq (board !! a) (board !! c)
  then default None (board !! a)
  else None.

(** [for (let line of lines) ...] *)
Fixpoint checkWinIn (lines : list Line) (board : Board) : option WinInfo :=
  match lines with
  | [] => None
  | l :: rest =>
      match lineWinner board l with
      | Some m => Some (mkWin m l)
      | None => checkWinIn rest board
      end
  end.

Definition checkWin (board : Board) : option WinInfo :=
  checkWinIn WINNING_LINES board.

Definition isDraw (board : Board) : bool :=
  forallb (fun cell => negb (isNull (Some cell))) board
  && negb (bool_decide (is_Some (checkWin board))).

(** The classification [makeMove] performs after a move:
    [if (win) ... else if (isDraw(board)) ... else ...]. *)
Inductive Outcome : Type :=
| InProgress
| Win (w : Mark) (l : Line)
| Draw.

Definition evaluate (board : Board) : Outcome :=
  match checkWin board with
  | Some win => Win (winner win) (line win)
  | None => if isDraw board then Draw else InProgress
  end.

(** ** Scores

    The searches start from [-Infinity] and [Infinity]; every other score is
    an integer. *)

Inductive Score : Type :=
| NegInf
| Fin (z : Z)
| PosInf.

(** [a < b] *)
Definition Score_ltb (a b : Score) : bool :=
  match a, b with
  | NegInf, NegInf => false
  | NegInf, _ => true
  | Fin _, NegInf => false
  | Fin x, Fin y => x <? y
  | Fin _, PosInf => true
  | PosInf, _ => false
  end.

(** [a <= b] *)
Definition Score_leb (a b : Score) : bool := negb (Score_ltb b a).

(** [Math.max(a, b)] and [Math.min(a, b)] *)
Definition Score_max (a b : Score) : Score := if Score_ltb a b then b else a.
Definition Score_min (a b : Score) : Score := if Score_ltb b a then b else a.

(** ** Randomness *)

(** [Math.floor(Math.random() * n)] for [n > 0]. *)
Definition randomBelow (rnd n : nat) : nat := (rnd mod n)%nat.

(** ** Easy: a random empty cell *)

(** [board.flatMap((v,i) => v === null ? [i] : [])] *)
Definition emptyIndices (board : Board) : list nat :=
  concat (imap (fun i v => if isNull (Some v) then [i] else []) board).

Definition aiRandomMove (board : Board) (rnd : nat) : Index :=
  let empties := emptyIndices board in
  if (length empties =? 0)%nat then INull
  else match empties !! randomBelow rnd (length empties) with
       | Some i => INum (Z.of_nat i)
       | None => IUndefined
       end.

(** ** The cells a [for (let i=0;i<9;i++)] loop visits *)

Definition cells : list nat := seq 0 9.

(** ** Difficult: heuristics and a search of bounded depth *)

(** The common head of both searches:
    [if (win) { if (win.winner === aiSymbol) return whenAi;
                if (win.winner === humanSymbol) return whenHuman; }
     if (isDraw(board)) return 0;]
    [None] means that the function goes on. *)
Definition terminalScore (board : Board) (aiSymbol humanSymbol : Mark)
    (whenAi whenHuman : Z) : option Z :=
  let decided :=
    match checkWin board with
    | Some win =>
        if Mark_eqb (winner win) aiSymbol then Some whenAi
        else if Mark_eqb (winner win) humanSymbol then Some whenHuman
        else None
    | None => None
    end in
  match decided with
  | Some s => Some s
  | None => if isDraw board then Some 0 else None
  end.

(** [board[4] === who ? 6 : (board[4] === other ? -6 : 0)] and the like. *)
Definition holds (board : Board) (i : nat) (m : Mark) : bool :=
  strictEq (board !! i) (Some (Some m)).

Definition cellValue (board : Board) (aiSymbol humanSymbol : Mark)
    (i : nat) (w : Z) : Z :=
  if holds board i aiSymbol then w
  else if holds board i humanSymbol then - w
  else 0.

(** The static evaluation at [depth === 0]. *)
Definition staticScore (board : Board) (aiSymbol humanSymbol : Mark) : Z :=
  let center := cellValue board aiSymbol humanSymbol 4 6 in
  let corners :=
    fold_left (fun s i => s + cellValue board aiSymbol humanSymbol i 3)
              [0; 2; 6; 8]%nat 0 in
  0 + center + corners.

(** One of the two loops of [limitedMinimaxScore]; [pick] is [Math.max] or
    [Math.min] and [rec] the recursive call on the board just written. *)
Fixpoint scoreLoop (rec : Board → option (Score * Board)) (mark : Mark)
    (pick : Score → Score → Score) (todo : list nat) (best : Score)
    (board : Board) : option (Score * Board) :=
  match todo with
  | [] => Some (best, board)
  | i :: rest =>
      if isNull (board !! i) then
        match rec (write board i (Some mark)) with
        | None => None
        | Some (val, board1) =>
            scoreLoop rec mark pick rest (pick best val) (write board1 i None)
        end
      else scoreLoop rec mark pick rest best board
  end.

Fixpoint limitedMinimaxScore_fuel (fuel : nat) (board : Board)
    (aiSymbol humanSymbol : Mark) (depth : Z) (isAiTurn : bool)
    : option (Score * Board) :=
  match fuel with
  | 0%nat => None
  | S fuel' =>
      match terminalScore board aiSymbol humanSymbol 100 (-100) with
      | Some s => Some (Fin s, board)
      | None =>
          if depth =? 0 then
            Some (Fin (staticScore board aiSymbol humanSymbol), board)
          else if isAiTurn then
            scoreLoop
              (fun b => limitedMinimaxScore_fuel fuel' b aiSymbol humanSymbol
                          (depth - 1) false)
              aiSymbol Score_max cells NegInf board
          else
            scoreLoop
              (fun b => limitedMinimaxScore_fuel fuel' b aiSymbol humanSymbol
                          (depth - 1) true)
              humanSymbol Score_min cells PosInf board
      end
  end.

(** Each call writes one more of the nine cells before it recurses, so ten
    nested calls are never exceeded. *)
Definition searchFuel : nat := 10.

Definition limitedMinimaxScore := limitedMinimaxScore_fuel searchFuel.

(** Steps 1 and 2 of [aiDifficultMove]: the first empty cell which, filled
    with [mark], makes [checkWin] report a line.  The cell is emptied again
    on both exits. *)
Fixpoint findCompleting (mark : Mark) (todo : list nat) (board : Board)
    : option nat * Board :=
  match todo with
  | [] => (None, board)
  | i :: rest =>
      if isNull (board !! i) then
        let board1 := write board i (Some mark) in
        if bool_decide (is_Some (checkWin board1))
        then (Some i, write board1 i None)
        else findCompleting mark rest (write board1 i None)
      else findCompleting mark rest board
  end.

(** [[...].filter(i => board[i] === null)] *)
Definition emptyAmong (board : Board) (candidates : list nat) : list nat :=
  List.filter (fun i => isNull (board !! i)) candidates.

(** Step 4: the loop over the empty corners. *)
Fixpoint cornerLoop (aiSymbol human : Mark) (cs : list nat) (best : nat)
    (bestScore : Score) (board : Board) : option (nat * Board) :=
  match cs with
  | [] => Some (best, board)
  | c :: rest =>
      match limitedMinimaxScore (write board c (Some aiSymbol))
              aiSymbol human 3 false with
      | None => None
      | Some (score, board1) =>
          let board2 := write board1 c None in
          if Score_ltb bestScore score
          then cornerLoop aiSymbol human rest c score board2
          else cornerLoop aiSymbol human rest best bestScore board2
      end
  end.

Definition aiDifficultMove (board : Board) (aiSymbol : Mark) (rnd : nat)
    : option (Index * Board) :=
  let human := otherMark aiSymbol in
  (* 1: immediate win *)
  match findCompleting aiSymbol cells board with
  | (Some i, board1) => Some (INum (Z.of_nat i), board1)
  | (None, board1) =>
  (* 2: block opponent win *)
  match findCompleting human cells board1 with
  | (Some i, board2) => Some (INum (Z.of_nat i), board2)
  | (None, board2) =>
  (* 3: center *)
  if isNull (board2 !! 4%nat) then Some (INum 4, board2) else
  (* 4: prefer corners if available *)
  match emptyAmong board2 [0; 2; 6; 8]%nat with
  | c0 :: cs =>
      match cornerLoop aiSymbol human (c0 :: cs) c0 NegInf board2 with
      | Some (best, board3) => Some (INum (Z.of_nat best), board3)
      | None => None
      end
  | [] =>
  (* 5: sides *)
  match emptyAmong board2 [1; 3; 5; 7]%nat with
  | s0 :: ss =>
      match (s0 :: ss) !! randomBelow rnd (length (s0 :: ss)) with
      | Some i => Some (INum (Z.of_nat i), board2)
      | None => Some (IUndefined, board2)
      end
  | [] =>
  (* fallback: random *)
  Some (aiRandomMove board2 rnd, board2)
  end end end end.

(** ** Hard: minimax with alpha-beta pruning *)

(** The objects [{ index, score }] that [minimax] returns; a leaf returns
    [{ score }], whose [index] reads as [undefined]. *)
Record SearchResult : Type := mkResult { index : Index; score : Score }.

(** [res.index = i] *)
Definition setIndex (res : SearchResult) (i : nat) : SearchResult :=
  mkResult (INum (Z.of_nat i)) (score res).

(** The loop of the maximising branch.  [rec] is the recursive call on the
    board just written, given the current [alpha]. *)
Fixpoint maxLoop (rec : Board → Score → option (SearchResult * Board))
    (mark : Mark) (beta : Score) (todo : list nat) (best : SearchResult)
    (alpha : Score) (board : Board) : option (SearchResult * Board) :=
  match todo with
  | [] => Some (best, board)
  | i :: rest =>
      if isNull (board !! i) then
        match rec (write board i (Some mark)) alpha with
        | None => None
        | Some (res0, board1) =>
            let board2 := write board1 i None in
            let res := setIndex res0 i in
            let best' := if Score_ltb (score best) (score res) then res else best in
            let alpha' := Score_max alpha (score res) in
            if Score_leb beta alpha' then Some (best', board2)  (* prune *)
            else maxLoop rec mark beta rest best' alpha' board2
        end
      else maxLoop rec mark beta rest best alpha board
  end.

(** The loop of the minimising branch, given the current [beta]. *)
Fixpoint minLoop (rec : Board → Score → option (SearchResult * Board))
    (mark : Mark) (alpha : Score) (todo : list nat) (best : SearchResult)
    (beta : Score) (board : Board) : option (SearchResult * Board) :=
  match todo with
  | [] => Some (best, board)
  | i :: rest =>
      if isNull (board !! i) then
        match rec (write board i (Some mark)) beta with
        | None => None
        | Some (res0, board1) =>
            let board2 := write board1 i None in
            let res := setIndex res0 i in
            let best' := if Score_ltb (score res) (score best) then res else best in
            let beta' := Score_min beta (score res) in
            if Score_leb beta' alpha then Some (best', board2)
            else minLoop rec mark alpha rest best' beta' board2
        end
      else minLoop rec mark alpha rest best beta board
  end.

Fixpoint minimax_fuel (fuel : nat) (board : Board) (aiSymbol humanSymbol : Mark)
    (isAiTurn : bool) (alpha beta : Score) (depth : Z)
    : option (SearchResult * Board) :=
  match fuel with
  | 0%nat => None
  | S fuel' =>
      match terminalScore board aiSymbol humanSymbol (100 - depth) (-100 + depth) with
      | Some s => Some (mkResult IUndefined (Fin s), board)
      | None =>
          if isAiTurn then
            maxLoop
              (fun b a => minimax_fuel fuel' b aiSymbol humanSymbol false
                            a beta (depth + 1))
              aiSymbol beta cells (mkResult (INum (-1)) NegInf) alpha board
          else
            minLoop
              (fun b bt => minimax_fuel fuel' b aiSymbol humanSymbol true
                             alpha bt (depth + 1))
              humanSymbol alpha cells (mkResult (INum (-1)) PosInf) beta board
      end
  end.

Definition minimax := minimax_fuel searchFuel.

(** [aiMinimaxMove] searches a copy ([board.slice()]), so only the index
    comes back. *)
Definition aiMinimaxMove (board : Board) (aiSymbol : Mark) (rnd : nat)
    : option Index :=
  let human := otherMark aiSymbol in
  if forallb (fun cell => isNull (Some cell)) board then
    match [0; 2; 6; 8]%nat !! randomBelow rnd 4 with
    | Some c => Some (INum (Z.of_nat c))
    | None => Some IUndefined
    end
  else
    match minimax board aiSymbol human true NegInf PosInf 0 with
    | Some (result, _) => Some (index result)
    | None => None
    end.

(** ** The session

    The object [GAME] and the part of the page the game logic reads and
    writes: the three [<select>] values, the status line, and the callbacks
    registered with [setTimeout] that have not run yet.  Every such callback
    is [aiMakeMove] and captures nothing, so their number is all there is to
    know about them.  Rendering, animation and focus handling are left
    out. *)

Record Scores : Type := mkScores { scoreX : nat; scoreO : nat; scoreDraw : nat }.

(** The entries [addHistory] receives, without the clock time. *)
Inductive HistoryEntry : Type :=
| WonEntry (m : Mark)
| DrawEntry.

(** The texts written to [statusEl.textContent]. *)
Inductive Status : Type :=
| Ready
| GameStarted (turn : Mark)
| NotRunning
| Occupied
| NotYourTurn (human : string)
| Wins (m : Mark)
| DrawStatus
| Turn (m : Mark).

Record Session : Type := mkSession {
  (* GAME *)
  board : Board;
  currentPlayer : Mark;
  running : bool;
  mode : string;
  aiLevel : string;
  playerSymbol : string;
  scores : Scores;
  history : list HistoryEntry;
  winningLine : option Line;
  lastMoveIndex : Index;
  (* page *)
  modeSelect : string;
  aiLevelSelect : string;
  playerSymbolSelect : string;
  status : Status;
  (* setTimeout(aiMakeMove, ...) not yet run *)
  pendingAiMoves : nat
}.

(** [announce(msg)] *)
Definition announce (msg : Status) (s : Session) : Session :=
  mkSession (board s) (currentPlayer s) (running s) (mode s) (aiLevel s)
    (playerSymbol s) (scores s) (history s) (winningLine s) (lastMoveIndex s)
    (modeSelect s) (aiLevelSelect s) (playerSymbolSelect s) msg
    (pendingAiMoves s).

(** [GAME.board = b] (also the effect of a routine that wrote into the
    array in place). *)
Definition withBoard (b : Board) (s : Session) : Session :=
  mkSession b (currentPlayer s) (running s) (mode s) (aiLevel s)
    (playerSymbol s) (scores s) (history s) (winningLine s) (lastMoveIndex s)
    (modeSelect s) (aiLevelSelect s) (playerSymbolSelect s) (status s)
    (pendingAiMoves s).

(** [GAME.scores[winner] += 1] *)
Definition bumpScore (w : Mark) (sc : Scores) : Scores :=
  match w with
  | X => mkScores (S (scoreX sc)) (scoreO sc) (scoreDraw sc)
  | O => mkScores (scoreX sc) (S (scoreO sc)) (scoreDraw sc)
  end.

(** [GAME.scores.draw += 1] *)
Definition bumpDraw (sc : Scores) : Scores :=
  mkScores (scoreX sc) (scoreO sc) (S (scoreDraw sc)).

(** [addHistory]: [unshift], then [slice(0, 12)]. *)
Definition addHistory (e : HistoryEntry) (h : list HistoryEntry) : list HistoryEntry :=
  take 12 (e :: h).

Definition startGame (s : Session) : Session :=
  let mode' := modeSelect s in
  let symbol' := playerSymbolSelect s in
  mkSession emptyBoard X true mode' (aiLevelSelect s) symbol'
    (scores s) (history s) None INull
    (modeSelect s) (aiLevelSelect s) (playerSymbolSelect s) (GameStarted X)
    (if String.eqb mode' "pvc" && negb (String.eqb symbol' "X")
     then S (pendingAiMoves s) else pendingAiMoves s).

(** [makeMove] returns its boolean together with the session. *)
Definition makeMove (idx : Index) (mark : Mark) (s : Session) : bool * Session :=
  if negb (isNull (readAt (board s) idx)) then (false, s)
  else
    match idx with
    | INum n =>
        let b := write (board s) (Z.to_nat n) (Some mark) in
        match checkWin b with
        | Some win =>
            (true,
             mkSession b (currentPlayer s) false (mode s) (aiLevel s)
               (playerSymbol s) (bumpScore (winner win) (scores s))
               (addHistory (WonEntry (winner win)) (history s))
               (Some (line win)) idx
               (modeSelect s) (aiLevelSelect s) (playerSymbolSelect s)
               (Wins (winner win)) (pendingAiMoves s))
        | None =>
            if isDraw b then
              (true,
               mkSession b (currentPlayer s) false (mode s) (aiLevel s)
                 (playerSymbol s) (bumpDraw (scores s))
                 (addHistory DrawEntry (history s))
                 None idx
                 (modeSelect s) (aiLevelSelect s) (playerSymbolSelect s)
                 DrawStatus (pendingAiMoves s))
            else
              let next := otherMark mark in
              (true,
               mkSession b next (running s) (mode s) (aiLevel s)
                 (playerSymbol s) (scores s) (history s)
                 (winningLine s) idx
                 (modeSelect s) (aiLevelSelect s) (playerSymbolSelect s)
                 (Turn next)
                 (if String.eqb (mode s) "pvc"
                     && negb (String.eqb (markString next) (playerSymbol s))
                  then S (pendingAiMoves s) else pendingAiMoves s))
        end
    | INull | IUndefined => (false, s)   (* not reached: the read is undefined *)
    end.

Definition humanMove (idx : Z) (s : Session) : Session :=
  if negb (running s) then announce NotRunning s
  else if negb (isNull (cellAt (board s) idx)) then announce Occupied s
  else if String.eqb (mode s) "pvc" then
    let human := playerSymbol s in
    let toPlay := currentPlayer s in
    if negb (String.eqb (markString toPlay) human)
    then announce (NotYourTurn human) s
    else snd (makeMove (INum idx) toPlay s)
  else snd (makeMove (INum idx) (currentPlayer s) s).

(** [a || b] on strings: the empty string is falsy. *)
Definition orElse (a b : string) : string :=
  if String.eqb a "" then b else a.

(** The test that sends [aiMakeMove] to its fallback:
    [typeof idx !== 'number' || idx < 0 || idx > 8 || GAME.board[idx] !== null] *)
Definition needsFallback (b : Board) (idx : Index) : bool :=
  match idx with
  | INum n => (n <? 0) || (8 <? n) || negb (isNull (cellAt b n))
  | INull | IUndefined => true
  end.

(** [aiMakeMove].  [rnd] feeds the strategy and [rnd'] the fallback.  The
    result is [None] only if a search ran out of fuel. *)
Definition aiMakeMove (rnd rnd' : nat) (s : Session) : option Session :=
  if negb (running s) then Some s
  else
    let aiSymbol := if String.eqb (playerSymbol s) "X" then O else X in
    let level := orElse (orElse (aiLevel s) (aiLevelSelect s)) "easy" in
    let chosen :=
      if String.eqb level "easy" then Some (aiRandomMove (board s) rnd, board s)
      else if String.eqb level "difficult" then aiDifficultMove (board s) aiSymbol rnd
      else (* hard *)
        match aiMinimaxMove (board s) aiSymbol rnd with
        | Some idx => Some (idx, board s)
        | None => None
        end in
    match chosen with
    | None => None
    | Some (idx, b) =>
        let s1 := withBoard b s in
        let idx' := if needsFallback b idx then aiRandomMove b rnd' else idx in
        Some (snd (makeMove idx' aiSymbol s1))
    end.

(** What can happen to a session: the handlers bound at the end of the
    source, and the timer running one pending callback. *)
Inductive Event : Type :=
| StartClicked
| CellClicked (idx : Z)
| AiLevelChanged (v : string)
| PlayerSymbolChanged (v : string)
| ModeChanged (v : string)
| TimerFired (rnd rnd' : nat).

Definition step (s : Session) (e : Event) : option Session :=
  match e with
  | StartClicked => Some (startGame s)
  | CellClicked idx => Some (humanMove idx s)
  | AiLevelChanged v =>
      Some (mkSession (board s) (currentPlayer s) (running s) (mode s) v
              (playerSymbol s) (scores s) (history s) (winningLine s)
              (lastMoveIndex s) (modeSelect s) v (playerSymbolSelect s)
              (status s) (pendingAiMoves s))
  | PlayerSymbolChanged v =>
      Some (mkSession (board s) (currentPlayer s) (running s) (mode s)
              (aiLevel s) v (scores s) (history s) (winningLine s)
              (lastMoveIndex s) (modeSelect s) (aiLevelSelect s) v
              (status s) (pendingAiMoves s))
  | ModeChanged v =>
      Some (mkSession (board s) (currentPlayer s) (running s) (mode s)
              (aiLevel s) (playerSymbol s) (scores s) (history s)
              (winningLine s) (lastMoveIndex s) v (aiLevelSelect s)
              (playerSymbolSelect s) (status s) (pendingAiMoves s))
  | TimerFired rnd rnd' =>
      match pendingAiMoves s with
      | 0%nat => Some s
      | S k =>
          aiMakeMove rnd rnd'
            (mkSession (board s) (currentPlayer s) (running s) (mode s)
               (aiLevel s) (playerSymbol s) (scores s) (history s)
               (winningLine s) (lastMoveIndex s) (modeSelect s)
               (aiLevelSelect s) (playerSymbolSelect s) (status s) k)
      end
  end.

Fixpoint run (s : Session) (es : list Event) : option Session :=
  match es with
  | [] => Some s
  | e :: rest =>
      match step s e with
      | Some s' => run s' rest
      | None => None
      end
  end.

(** The object [GAME] as the source initialises it, on a page whose
    selects show the given values. *)
Definition initialSession (modeSel levelSel symbolSel : string) : Session :=
  mkSession emptyBoard X false "pvp" "easy" "X" (mkScores 0 0 0) [] None INull
    modeSel levelSel symbolSel Ready 0.

(** ** Keyboard navigation

    The index arithmetic of the listener installed by
    [enableBoardKeyboardNavigation], for a focused cell [idx]:
    [row = Math.floor(idx/3)], [col = idx % 3], one of the four arrow keys
    moves [col] or [row] cyclically, and the cell [row*3 + col] receives
    the focus.  [Math.floor] of the quotient is [Z.div]; [%] truncates
    towards zero and is [Z.rem]. *)

Definition arrowTarget (key : string) (idx : Z) : Z :=
  let row := idx / 3 in
  let col := Z.rem idx 3 in
  let col := if String.eqb key "ArrowLeft" then Z.rem (col + 2) 3 else col in
  let col := if String.eqb key "ArrowRight" then Z.rem (col + 1) 3 else col in
  let row := if String.eqb key "ArrowUp" then Z.rem (row + 2) 3 else row in
  let row := if String.eqb key "ArrowDown" then Z.rem (row + 1) 3 else row in
  row * 3 + col.

(** ** Reference: minimax without pruning

    The search the specification describes, written over persistent boards
    and without the bounds: the value of a finished board is [100 - depth]
    when the engine's mark has won, [-100 + depth] when the opponent has won
    and [0] for a draw; the value of any other board is the largest value of
    its successors when the engine is to move and the smallest when the
    opponent is. *)

Fixpoint bestOver (pick : Score → Score → Score) (child : nat → option Score)
    (todo : list nat) (b : Board) (acc : Score) : option Score :=
  match todo with
  | [] => Some acc
  | i :: rest =>
      if isNull (b !! i) then
        match child i with
        | Some v => bestOver pick child rest b (pick acc v)
        | None => None
        end
      else bestOver pick child rest b acc
  end.

Fixpoint unprunedMinimax_fuel (fuel : nat) (b : Board) (aiMark : Mark)
    (aiToMove : bool) (depth : Z) : option Score :=
  match fuel with
  | 0%nat => None
  | S fuel' =>
      match evaluate b with
      | Win w _ => Some (Fin (if Mark_eqb w aiMark then 100 - depth else -100 + depth))
      | Draw => Some (Fin 0)
      | InProgress =>
          let mark := if aiToMove then aiMark else otherMark aiMark in
          bestOver (if aiToMove then Score_max else Score_min)
            (fun i => unprunedMinimax_fuel fuel' (write b i (Some mark)) aiMark
                        (negb aiToMove) (depth + 1))
            cells b (if aiToMove then NegInf else PosInf)
      end
  end.

Definition unprunedMinimax := unprunedMinimax_fuel searchFuel.

(** A score cut to the window between [alpha] and [beta]. *)
Definition clamp (alpha beta x : Score) : Score :=
  Score_max alpha (Score_min x beta).

(** ** Specification vocabulary *)

(** *** Complete lines and full boards *)

(** The three cells of [l] hold the mark [m]. *)
Definition completeFor (board : Board) (m : Mark) (l : Line) : Prop :=
  board !! l.1.1 = Some (Some m)
  ∧ board !! l.1.2 = Some (Some m)
  ∧ board !! l.2 = Some (Some m).

Definition complete (board : Board) (l : Line) : Prop :=
  ∃ m, completeFor board m l.

Definition noEmptyCell (board : Board) : Prop :=
  ∀ i, board !! i ≠ Some None.

Definition noCompleteLine (board : Board) : Prop :=
  ∀ l, l ∈ WINNING_LINES → ¬ complete board l.

(** *** Measure of the searches *)

(** The number of empty cells among the nine a loop visits: the measure
    that bounds the depth of both searches. *)
Fixpoint nulls (b : Board) : nat :=
  match b with
  | [] => 0
  | None :: rest => S (nulls rest)
  | Some _ :: rest => nulls rest
  end.

Definition emptyCount (b : Board) : nat := nulls (take 9 b).

(** *** Results of the search *)

(** A result that names an empty cell and carries a finite score. *)
Definition namesEmptyCell (b : Board) (r : SearchResult) : Prop :=
  ∃ i z, index r = INum (Z.of_nat i) ∧ (i < 9)%nat
         ∧ b !! i = Some None ∧ score r = Fin z.

(** *** Winning and blocking cells *)

(** Filling the empty cell [i] with [m] completes a line for [m]. *)
Definition completesLine (b : Board) (m : Mark) (i : nat) : Prop :=
  b !! i = Some None
  ∧ ∃ l, l ∈ WINNING_LINES ∧ completeFor (write b i (Some m)) m l.

(** *** Refused clicks *)

(** The four reasons for which a click on cell [idx] must be refused. *)
Definition mustReject (idx : Z) (s : Session) : Prop :=
  running s = false
  ∨ (idx < 0 ∨ 8 < idx)
  ∨ (∃ m, cellAt (board s) idx = Some (Some m))
  ∨ (mode s = "pvc"%string ∧ markString (currentPlayer s) ≠ playerSymbol s).

(** *** Scenarios *)

(** A session in the middle of a game, on a page whose selects hold strings
    the game does not know. *)
Definition strangeConfiguration : Session :=
  mkSession [Some X; Some O; None; None; None; None; None; None; None]
    X false "pvp" "easy" "X" (mkScores 0 0 0) [] None (INum 1)
    "blitz" "impossible" "X" (Turn X) 0.

(** The page in human-vs-AI mode, the human playing X: start, click the
    corner 0, which schedules the reply of the AI, and press start again
    before the reply has run. *)
Definition restartedWithPendingMove : option Session :=
  run (initialSession "pvc" "difficult" "X")
      [StartClicked; CellClicked 0; StartClicked].

(** *** Self-play *)

(** A game in which both marks ask [aiMinimaxMove] for their move and the
    move is placed on the board, until [evaluate] reports the end.  [rnd k]
    is the random draw available to the [k]-th move.  The result is the
    final board; [None] if a move is not a number naming an empty cell, or
    if the fuel runs out. *)
Fixpoint selfPlay (fuel : nat) (b : Board) (toMove : Mark) (rnd : nat → nat)
    (turn : nat) : option Board :=
  match fuel with
  | 0%nat => None
  | S fuel' =>
      match evaluate b with
      | InProgress =>
          match aiMinimaxMove b toMove (rnd turn) with
          | Some (INum n) =>
              if isNull (cellAt b n)
              then selfPlay fuel' (write b (Z.to_nat n) (Some toMove))
                     (otherMark toMove) rnd (S turn)
              else None
          | _ => None
          end
      | _ => Some b
      end
  end.

(** *** The invariant of the session *)

(** A nine-cell board which, while the game is running, is still in
    progress. *)
Definition wellFormed (s : Session) : Prop :=
  length (board s) = 9%nat
  ∧ (running s = true → evaluate (board s) = InProgress).

(** *** Counting marks and games *)

(** The number of cells holding the mark [m]. *)
Fixpoint countMark (m : Mark) (b : Board) : nat :=
  match b with
  | [] => 0
  | c :: rest =>
      (if strictEq (Some c) (Some (Some m)) then 1 else 0) + countMark m rest
  end%nat.

(** The tally [GAME.scores[m]]. *)
Definition tally (m : Mark) (sc : Scores) : nat :=
  match m with X => scoreX sc | O => scoreO sc end.

(** The number of games the three tallies account for. *)
Definition gamesCounted (sc : Scores) : nat :=
  (scoreX sc + scoreO sc + scoreDraw sc)%nat.

(** *** Events within one game *)

(** Clicks on cells and timers, as opposed to a restart or a change of the
    selects. *)
Definition withinGame (e : Event) : Prop :=
  match e with
  | CellClicked _ | TimerFired _ _ => True
  | _ => False
  end.


(** *** Exhaustive play against the optimal strategy *)

(** The draws that matter to [aiMinimaxMove]: the four corners on the empty
    board, nothing otherwise. *)
Definition openingDraws (b : Board) : list nat :=
  if forallb (fun cell => isNull (Some cell)) b then [0; 1; 2; 3]%nat else [0%nat].

(** [unbeaten fuel b ai aiToMove] explores every game that continues from
    [b] when [ai] moves by [aiMinimaxMove] (for every draw) and the opponent
    moves to any empty cell, and checks that none of them ends with a line
    of the opponent. *)
Fixpoint unbeaten (fuel : nat) (b : Board) (ai : Mark) (aiToMove : bool) : bool :=
  match fuel with
  | 0%nat => false
  | S fuel' =>
      match evaluate b with
      | Win w _ => Mark_eqb w ai
      | Draw => true
      | InProgress =>
          if aiToMove then
            forallb
              (fun r =>
                 match aiMinimaxMove b ai r with
                 | Some (INum n) =>
                     isNull (cellAt b n)
                     && unbeaten fuel' (write b (Z.to_nat n) (Some ai)) ai false
                 | _ => false
                 end)
              (openingDraws b)
          else
            forallb
              (fun i =>
                 negb (isNull (b !! i))
                 || unbeaten fuel' (write b i (Some (otherMark ai))) ai true)
              cells
      end
  end.

(** *** The range of the scores of [minimax] *)

(** The scores a search started at [depth] can return on a board with [n]
    empty cells: a draw, a win of the engine within [n] plies, or a win of
    the opponent within [n] plies. *)
Definition outcomeScore (depth n : Z) (v : Score) : Prop :=
  ∃ z, v = Fin z
       ∧ (z = 0
          ∨ 100 - depth - n ≤ z ≤ 100 - depth
          ∨ -100 + depth ≤ z ≤ -100 + depth + n).

(** *** Human against human *)



(** *** Human against the hard level *)

(** The invariant of a game against the hard level: the human [h] has not
    gained a point, and from the present board the engine cannot be beaten
    whatever the human plays. *)
Definition guarded (h : Mark) (points : nat) (s : Session) : Prop :=
  mode s = "pvc"%string ∧ aiLevel s = "hard"%string
  ∧ playerSymbol s = markString h
  ∧ length (board s) = 9%nat
  ∧ tally h (scores s) = points
  ∧ status s ≠ Wins h
  ∧ ((running s = false
      ∧ (evaluate (board s) = Draw
         ∨ ∃ l, evaluate (board s) = Win (otherMark h) l))
     ∨ (running s = true ∧ currentPlayer s = h ∧ pendingAiMoves s = 0%nat
        ∧ evaluate (board s) = InProgress
        ∧ ∃ fuel, unbeaten fuel (board s) (otherMark h) false = true)
     ∨ (running s = true ∧ currentPlayer s = otherMark h
        ∧ pendingAiMoves s = 1%nat
        ∧ evaluate (board s) = InProgress
        ∧ ∃ fuel, unbeaten fuel (board s) (otherMark h) true = true)).

(** ** Lemmas on the rules engine *)

Lemma Mark_eqb_eq a b : Mark_eqb a b = true ↔ a = b.
Proof. destruct a, b; simpl; split; congruence. Qed.

Lemma Mark_eqb_refl a : Mark_eqb a a = true.
Proof. by destruct a. Qed.

Lemma otherMark_ne m : otherMark m ≠ m.
Proof. by destruct m. Qed.

Lemma isNull_spec (v : Read) : isNull v = true ↔ v = Some None.
Proof. destruct v as [[?|]|]; simpl; split; congruence. Qed.

Lemma lineWinner_Some board l m :
  lineWinner board l = Some m ↔ completeFor board m l.
Proof.
  destruct l as [[a b] c]. unfold lineWinner, completeFor. simpl.
  destruct (board !! a) as [[x|]|] eqn:Ha; simpl;
    try (split; [congruence | intros (? & ? & ?); congruence]).
  destruct (board !! b) as [[y|]|] eqn:Hb; simpl;
    try (split; [congruence | intros (? & ? & ?); congruence]).
  destruct (board !! c) as [[z|]|] eqn:Hc; simpl;
    try (rewrite andb_false_r);
    try (split; [congruence | intros (? & ? & ?); congruence]).
  destruct (Mark_eqb x y) eqn:Hxy; simpl.
  - apply Mark_eqb_eq in Hxy. subst y.
    destruct (Mark_eqb x z) eqn:Hxz.
    + apply Mark_eqb_eq in Hxz. subst z. split.
      * intros [= ->]. done.
      * intros ([= ->] & _ & _). done.
    + split; [congruence|]. intros ([= ->] & _ & [= ->]).
      rewrite Mark_eqb_refl in Hxz. congruence.
  - split; [congruence|]. intros ([= ->] & [= ->] & _).
    rewrite Mark_eqb_refl in Hxy. congruence.
Qed.

Lemma lineWinner_None board l :
  lineWinner board l = None ↔ ¬ complete board l.
Proof.
  split.
  - intros H [m Hm]. apply lineWinner_Some in Hm. congruence.
  - intros H. destruct (lineWinner board l) as [m|] eqn:E; [|done].
    exfalso. apply H. exists m. by apply lineWinner_Some.
Qed.

(** [checkWinIn] returns the first complete line of the list it scans. *)
Lemma checkWinIn_Some lines board w :
  checkWinIn lines board = Some w ↔
  ∃ pre post, lines = pre ++ line w :: post
            ∧ (∀ l, l ∈ pre → ¬ complete board l)
            ∧ completeFor board (winner w) (line w).
Proof.
  induction lines as [|l rest IH]; simpl.
  - split; [congruence|]. intros (pre & post & H & _). by destruct pre.
  - destruct (lineWinner board l) as [m|] eqn:E.
    + split.
      * intros [= <-]. exists [], rest. simpl. split; [done|]. split.
        -- intros ? Hin. by apply not_elem_of_nil in Hin.
        -- by apply lineWinner_Some.
      * intros (pre & post & Heq & Hpre & Hw).
        destruct pre as [|p pre]; simpl in Heq.
        -- injection Heq as Hl _. subst l.
           apply lineWinner_Some in Hw. destruct w as [wm wl]; simpl in *.
           congruence.
        -- injection Heq as Hl _. subst p. exfalso.
           apply (Hpre l); [left|]. exists m. by apply lineWinner_Some.
    + rewrite IH. split.
      * intros (pre & post & -> & Hpre & Hw).
        exists (l :: pre), post. split; [done|]. split; [|done].
        intros l' [->|Hin]%elem_of_cons; [|by apply Hpre].
        by apply lineWinner_None.
      * intros (pre & post & Heq & Hpre & Hw).
        destruct pre as [|p pre]; simpl in Heq.
        -- injection Heq as Hl _. subst l.
           apply lineWinner_Some in Hw. congruence.
        -- injection Heq as _ Hrest. exists pre, post.
           split; [done|]. split; [|done].
           intros l' Hin. apply Hpre. by right.
Qed.

Lemma checkWinIn_None lines board :
  checkWinIn lines board = None ↔ ∀ l, l ∈ lines → ¬ complete board l.
Proof.
  induction lines as [|l rest IH]; simpl.
  - split; [|done]. intros _ ? Hin. by apply not_elem_of_nil in Hin.
  - destruct (lineWinner board l) as [m|] eqn:E.
    + split; [congruence|]. intros H. exfalso.
      apply (H l); [left|]. exists m. by apply lineWinner_Some.
    + rewrite IH. split.
      * intros H l' [->|Hin]%elem_of_cons; [by apply lineWinner_None|by apply H].
      * intros H l' Hin. apply H. by right.
Qed.

Lemma checkWin_None board : checkWin board = None ↔ noCompleteLine board.
Proof. apply checkWinIn_None. Qed.

Lemma forallb_not_null board :
  forallb (fun cell => negb (isNull (Some cell))) board = true ↔ noEmptyCell board.
Proof.
  unfold noEmptyCell. induction board as [|c board IH]; simpl.
  - split; [|done]. intros _ i. by destruct i.
  - rewrite andb_true_iff, IH. split.
    + intros [Hc H] [|i]; simpl; [|apply H]. destruct c; simpl in *; congruence.
    + intros H. split.
      * specialize (H 0%nat). simpl in H. destruct c; simpl; congruence.
      * intros i. apply (H (S i)).
Qed.

Lemma isDraw_true board :
  isDraw board = true ↔ noEmptyCell board ∧ noCompleteLine board.
Proof.
  unfold isDraw. rewrite andb_true_iff, forallb_not_null, negb_true_iff.
  rewrite bool_decide_eq_false, <- checkWin_None.
  split; intros [H1 H2]; split; try done.
  - destruct (checkWin board); [|done]. exfalso. apply H2. by eexists.
  - rewrite H2. by intros [? ?].
Qed.

(** ** The rules engine is correct *)

(** C2.  [evaluate] is a total function into the three outcomes.  When it
    answers [Win w l], the line [l] is one of the eight fixed triples, its
    three cells hold the mark [w], and no line before it in the scan order
    (rows, columns, diagonals) is complete.  It answers [Draw] exactly when
    no cell is empty and no line is complete, and [InProgress] exactly when
    no line is complete and some cell is empty. *)
Theorem evaluate_correct (board : Board) :
  (evaluate board = InProgress
   ∨ (∃ w l, evaluate board = Win w l)
   ∨ evaluate board = Draw)
  ∧ (∀ w l, evaluate board = Win w l →
       (∃ pre post, WINNING_LINES = pre ++ l :: post
                  ∧ ∀ l', l' ∈ pre → ¬ complete board l')
       ∧ l ∈ WINNING_LINES
       ∧ completeFor board w l)
  ∧ (evaluate board = Draw ↔ noEmptyCell board ∧ noCompleteLine board)
  ∧ (evaluate board = InProgress ↔ ¬ noEmptyCell board ∧ noCompleteLine board).
Proof.
  unfold evaluate.
  destruct (checkWin board) as [win|] eqn:Hw.
  - split; [right; left; eauto|].
    pose proof Hw as Hw'. apply checkWinIn_Some in Hw'.
    destruct Hw' as (pre & post & Heq & Hpre & Hc).
    split; [|split].
    + intros w l [= <- <-]. split; [by exists pre, post|]. split; [|done].
      fold WINNING_LINES in Heq. rewrite Heq. apply elem_of_app. right. left.
    + split; [congruence|]. intros [_ Hn]. apply checkWin_None in Hn. congruence.
    + split; [congruence|]. intros [_ Hn]. apply checkWin_None in Hn. congruence.
  - pose proof Hw as Hn. apply checkWin_None in Hn.
    destruct (isDraw board) eqn:Hd.
    + apply isDraw_true in Hd. destruct Hd as [He _].
      split; [by right; right|]. split; [congruence|]. split.
      * split; done.
      * split; [congruence|]. intros [Hne _]. done.
    + split; [by left|]. split; [congruence|]. split.
      * split; [congruence|]. intros H. apply isDraw_true in H. congruence.
      * split; [|done]. intros _. split; [|done].
        intros He. assert (isDraw board = true) by by apply isDraw_true.
        congruence.
Qed.

(** ** Writing a cell and emptying it again *)

Lemma isNull_true (v : Read) : isNull v = true → v = Some None.
Proof. by intros ?%isNull_spec. Qed.

Lemma write_undo (b : Board) (i : nat) (m : Mark) :
  b !! i = Some None → write (write b i (Some m)) i None = b.
Proof.
  intros H. unfold write. rewrite list_insert_insert_eq. by apply list_insert_id.
Qed.

Lemma in_cells (i : nat) : i ∈ cells ↔ (i < 9)%nat.
Proof. unfold cells. rewrite elem_of_seq. lia. Qed.

Lemma nulls_insert (b : Board) (i : nat) (m : Mark) :
  b !! i = Some None → S (nulls (<[i := Some m]> b)) = nulls b.
Proof.
  revert i. induction b as [|c b IH]; intros [|i] H; simpl in *; try done.
  - by injection H as ->.
  - destruct c; [|f_equal]; by apply IH.
Qed.

Lemma nulls_le_length (b : Board) : (nulls b ≤ length b)%nat.
Proof. induction b as [|[?|] b IH]; simpl; lia. Qed.

Lemma emptyCount_le (b : Board) : (emptyCount b ≤ 9)%nat.
Proof.
  unfold emptyCount. pose proof (nulls_le_length (take 9 b)) as H.
  rewrite length_take in H. lia.
Qed.

Lemma emptyCount_write (b : Board) (i : nat) (m : Mark) :
  (i < 9)%nat → b !! i = Some None →
  S (emptyCount (write b i (Some m))) = emptyCount b.
Proof.
  intros Hi H. unfold emptyCount, write. rewrite take_insert_lt by done.
  apply nulls_insert. by rewrite lookup_take_lt.
Qed.

(** ** The searches leave the board as they found it *)

(** The defining equations of the two searches, one call deep. *)
Lemma limitedMinimaxScore_fuel_S fuel (b : Board) ai hu depth isAi :
  limitedMinimaxScore_fuel (S fuel) b ai hu depth isAi =
  match terminalScore b ai hu 100 (-100) with
  | Some s => Some (Fin s, b)
  | None =>
      if depth =? 0 then Some (Fin (staticScore b ai hu), b)
      else if isAi then
        scoreLoop (fun b' => limitedMinimaxScore_fuel fuel b' ai hu (depth - 1) false)
          ai Score_max cells NegInf b
      else
        scoreLoop (fun b' => limitedMinimaxScore_fuel fuel b' ai hu (depth - 1) true)
          hu Score_min cells PosInf b
  end.
Proof. reflexivity. Qed.

Lemma minimax_fuel_S fuel (b : Board) ai hu isAi alpha beta depth :
  minimax_fuel (S fuel) b ai hu isAi alpha beta depth =
  match terminalScore b ai hu (100 - depth) (-100 + depth) with
  | Some s => Some (mkResult IUndefined (Fin s), b)
  | None =>
      if isAi then
        maxLoop (fun b' a => minimax_fuel fuel b' ai hu false a beta (depth + 1))
          ai beta cells (mkResult (INum (-1)) NegInf) alpha b
      else
        minLoop (fun b' bt => minimax_fuel fuel b' ai hu true alpha bt (depth + 1))
          hu alpha cells (mkResult (INum (-1)) PosInf) beta b
  end.
Proof. reflexivity. Qed.

Lemma scoreLoop_restores rec mark pick todo best (b : Board) :
  (∀ i, i ∈ todo → b !! i = Some None →
     ∃ v, rec (write b i (Some mark)) = Some (v, write b i (Some mark))) →
  ∃ v, scoreLoop rec mark pick todo best b = Some (v, b).
Proof.
  revert best. induction todo as [|i rest IH]; intros best Hrec; simpl; [eauto|].
  destruct (isNull (b !! i)) eqn:Hn.
  - apply isNull_true in Hn.
    destruct (Hrec i) as [v Hv]; [left|done|].
    rewrite Hv, write_undo by done.
    apply IH. intros j Hj. apply Hrec. by right.
  - apply IH. intros j Hj. apply Hrec. by right.
Qed.

Lemma limitedMinimaxScore_fuel_restores fuel (b : Board) ai hu depth isAi :
  (emptyCount b < fuel)%nat →
  ∃ v, limitedMinimaxScore_fuel fuel b ai hu depth isAi = Some (v, b).
Proof.
  revert b depth isAi.
  induction fuel as [|fuel IH]; intros b depth isAi Hlt; [lia|].
  rewrite limitedMinimaxScore_fuel_S.
  destruct (terminalScore b ai hu 100 (-100)); [eauto|].
  destruct (depth =? 0); [eauto|].
  destruct isAi; apply scoreLoop_restores; intros i Hi%in_cells Hnull;
    apply IH; pose proof (emptyCount_write b i) as Hw;
    [specialize (Hw ai Hi Hnull)|specialize (Hw hu Hi Hnull)]; lia.
Qed.

Lemma limitedMinimaxScore_restores (b : Board) ai hu depth isAi :
  ∃ v, limitedMinimaxScore b ai hu depth isAi = Some (v, b).
Proof.
  apply limitedMinimaxScore_fuel_restores.
  pose proof (emptyCount_le b). unfold searchFuel. lia.
Qed.

Lemma maxLoop_restores rec mark beta todo best alpha (b : Board) :
  (∀ i a, i ∈ todo → b !! i = Some None →
     ∃ r, rec (write b i (Some mark)) a = Some (r, write b i (Some mark))) →
  ∃ r, maxLoop rec mark beta todo best alpha b = Some (r, b).
Proof.
  revert best alpha.
  induction todo as [|i rest IH]; intros best alpha Hrec; simpl; [eauto|].
  destruct (isNull (b !! i)) eqn:Hn.
  - apply isNull_true in Hn.
    destruct (Hrec i alpha) as [r Hr]; [left|done|].
    rewrite Hr, write_undo by done.
    destruct (Score_leb _ _); [eauto|].
    apply IH. intros j a Hj. apply Hrec. by right.
  - apply IH. intros j a Hj. apply Hrec. by right.
Qed.

Lemma minLoop_restores rec mark alpha todo best beta (b : Board) :
  (∀ i bt, i ∈ todo → b !! i = Some None →
     ∃ r, rec (write b i (Some mark)) bt = Some (r, write b i (Some mark))) →
  ∃ r, minLoop rec mark alpha todo best beta b = Some (r, b).
Proof.
  revert best beta.
  induction todo as [|i rest IH]; intros best beta Hrec; simpl; [eauto|].
  destruct (isNull (b !! i)) eqn:Hn.
  - apply isNull_true in Hn.
    destruct (Hrec i beta) as [r Hr]; [left|done|].
    rewrite Hr, write_undo by done.
    destruct (Score_leb _ _); [eauto|].
    apply IH. intros j bt Hj. apply Hrec. by right.
  - apply IH. intros j bt Hj. apply Hrec. by right.
Qed.

Lemma minimax_fuel_restores fuel (b : Board) ai hu isAi alpha beta depth :
  (emptyCount b < fuel)%nat →
  ∃ r, minimax_fuel fuel b ai hu isAi alpha beta depth = Some (r, b).
Proof.
  revert b isAi alpha beta depth.
  induction fuel as [|fuel IH]; intros b isAi alpha beta depth Hlt; [lia|].
  rewrite minimax_fuel_S. destruct (terminalScore b ai hu _ _); [eauto|].
  destruct isAi; [apply maxLoop_restores|apply minLoop_restores];
    intros i a Hi%in_cells Hnull; apply IH;
    pose proof (emptyCount_write b i) as Hw;
    [specialize (Hw ai Hi Hnull)|specialize (Hw hu Hi Hnull)]; lia.
Qed.

Lemma minimax_restores (b : Board) ai hu isAi alpha beta depth :
  ∃ r, minimax b ai hu isAi alpha beta depth = Some (r, b).
Proof.
  apply minimax_fuel_restores.
  pose proof (emptyCount_le b). unfold searchFuel. lia.
Qed.

Lemma findCompleting_restores mark todo (b : Board) :
  (findCompleting mark todo b).2 = b.
Proof.
  induction todo as [|i rest IH]; simpl; [done|].
  destruct (isNull (b !! i)) eqn:Hn; [|done].
  apply isNull_true in Hn. rewrite write_undo by done.
  by destruct (bool_decide _).
Qed.

Lemma cornerLoop_restores ai hu cs best bestScore (b : Board) :
  (∀ c, c ∈ cs → b !! c = Some None) →
  ∃ best', cornerLoop ai hu cs best bestScore b = Some (best', b)
           ∧ (best' = best ∨ best' ∈ cs).
Proof.
  revert best bestScore.
  induction cs as [|c rest IH]; intros best bestScore Hcs; simpl; [eauto|].
  destruct (limitedMinimaxScore_restores (write b c (Some ai)) ai hu 3 false)
    as [v Hv].
  rewrite Hv, write_undo by (apply Hcs; left).
  destruct (Score_ltb bestScore v).
  - destruct (IH c v) as (best' & H & Hb); [intros; apply Hcs; by right|].
    exists best'. split; [done|]. right.
    destruct Hb as [->|Hb]; [left|by right].
  - destruct (IH best bestScore) as (best' & H & Hb); [intros; apply Hcs; by right|].
    exists best'. split; [done|]. destruct Hb as [->|Hb]; [by left|right; by right].
Qed.

Lemma emptyAmong_spec (b : Board) candidates i :
  i ∈ emptyAmong b candidates ↔ i ∈ candidates ∧ b !! i = Some None.
Proof.
  unfold emptyAmong. rewrite list_elem_of_In, filter_In, <- list_elem_of_In.
  by rewrite isNull_spec.
Qed.

Lemma aiDifficultMove_restores (b : Board) ai rnd :
  ∃ idx, aiDifficultMove b ai rnd = Some (idx, b).
Proof.
  unfold aiDifficultMove.
  pose proof (findCompleting_restores ai cells b) as H1.
  destruct (findCompleting ai cells b) as [[i|] b1]; simpl in H1; subst b1; [eauto|].
  pose proof (findCompleting_restores (otherMark ai) cells b) as H2.
  destruct (findCompleting (otherMark ai) cells b) as [[i|] b2]; simpl in H2;
    subst b2; [eauto|].
  destruct (isNull (b !! 4%nat)); [eauto|].
  destruct (emptyAmong b [0; 2; 6; 8]%nat) as [|c0 cs] eqn:Hc.
  - destruct (emptyAmong b [1; 3; 5; 7]%nat) as [|s0 ss]; [eauto|].
    destruct (_ !! _); eauto.
  - destruct (cornerLoop_restores ai (otherMark ai) (c0 :: cs) c0 NegInf b)
      as (best & -> & _); [|eauto].
    intros c Hin. rewrite <- Hc in Hin. by apply emptyAmong_spec in Hin as [_ ?].
Qed.

(** C7.  Each search routine returns, and the board it leaves behind is the
    board it was given, cell for cell: [aiDifficultMove],
    [limitedMinimaxScore] and [minimax] all undo every cell they write. *)
Theorem searches_restore_board :
  (∀ (b : Board) aiSymbol rnd,
     ∃ idx, aiDifficultMove b aiSymbol rnd = Some (idx, b))
  ∧ (∀ (b : Board) aiSymbol humanSymbol depth isAiTurn,
       ∃ v, limitedMinimaxScore b aiSymbol humanSymbol depth isAiTurn = Some (v, b))
  ∧ (∀ (b : Board) aiSymbol humanSymbol isAiTurn alpha beta depth,
       ∃ r, minimax b aiSymbol humanSymbol isAiTurn alpha beta depth = Some (r, b)).
Proof.
  split; [|split].
  - apply aiDifficultMove_restores.
  - apply limitedMinimaxScore_restores.
  - apply minimax_restores.
Qed.

(** ** Pruning does not change the value *)

(** Case analysis on scores: every variable of type [Score] is split and the
    comparisons that remain are decided by [lia]. *)
Ltac score_cases :=
  unfold clamp, Score_max, Score_min, Score_leb in *;
  repeat match goal with
    | s : Score |- _ => destruct s; simpl in *; try discriminate
    end;
  repeat match goal with
    | |- context [?x <? ?y] =>
        destruct (Z.ltb_spec x y); simpl in *; try discriminate
    | H : context [?x <? ?y] |- _ =>
        destruct (Z.ltb_spec x y); simpl in *; try discriminate
    end;
  simplify_eq; try done; try (f_equal; lia); try (exfalso; lia).

Lemma clamp_open x : clamp NegInf PosInf x = x.
Proof. score_cases. Qed.

Lemma Score_leb_refl a : Score_leb a a = true.
Proof. score_cases. Qed.

Lemma Score_leb_trans a b c :
  Score_leb a b = true → Score_leb b c = true → Score_leb a c = true.
Proof. intros; score_cases. Qed.

Lemma Score_ltb_leb a b : Score_ltb a b = true → Score_leb a b = true.
Proof. intros; score_cases. Qed.

Lemma Score_leb_max_l a b : Score_leb a (Score_max a b) = true.
Proof. score_cases. Qed.

Lemma Score_leb_max_r a b : Score_leb b (Score_max a b) = true.
Proof. score_cases. Qed.

Lemma Score_leb_min_l a b : Score_leb (Score_min a b) a = true.
Proof. score_cases. Qed.

Lemma Score_leb_min_r a b : Score_leb (Score_min a b) b = true.
Proof. score_cases. Qed.

Lemma Score_max_assoc a b c :
  Score_max (Score_max a b) c = Score_max a (Score_max b c).
Proof. score_cases. Qed.

Lemma Score_min_assoc a b c :
  Score_min (Score_min a b) c = Score_min a (Score_min b c).
Proof. score_cases. Qed.

Lemma Score_leb_ltb_trans a b c :
  Score_leb a b = true → Score_ltb b c = true → Score_ltb a c = true.
Proof. intros; score_cases. Qed.

Lemma Score_ltb_leb_trans a b c :
  Score_ltb a b = true → Score_leb b c = true → Score_ltb a c = true.
Proof. intros; score_cases. Qed.

Lemma Score_leb_false a b : Score_leb a b = false → Score_ltb b a = true.
Proof. intros; score_cases. Qed.

(** A value at or above the window is cut to [beta], one at or below it to
    [alpha]. *)
Lemma clamp_above alpha beta x :
  Score_leb alpha beta = true → Score_leb beta x = true →
  clamp alpha beta x = beta.
Proof. intros; score_cases. Qed.

Lemma clamp_below alpha beta x :
  Score_leb alpha beta = true → Score_leb x alpha = true →
  clamp alpha beta x = alpha.
Proof. intros; score_cases. Qed.

(** Inside the window nothing is cut. *)
Lemma clamp_max_inside alpha beta x :
  Score_ltb (Score_max alpha x) beta = true →
  clamp alpha beta x = Score_max alpha x.
Proof. intros; score_cases. Qed.

Lemma clamp_min_inside alpha beta x :
  Score_ltb alpha (Score_min beta x) = true →
  clamp alpha beta x = Score_min beta x.
Proof. intros; score_cases. Qed.

(** What a child's answer tells about its true value [v], when the answer
    [s] agrees with [v] up to the window: at a cut both are beyond the
    bound, otherwise they move the bound alike. *)
Lemma max_window_cut alpha beta s v :
  Score_ltb alpha beta = true →
  Score_leb beta (Score_max alpha s) = true →
  clamp alpha beta s = clamp alpha beta v →
  Score_leb beta s = true ∧ Score_leb beta v = true.
Proof. intros; split; score_cases. Qed.

Lemma max_window_step alpha beta s v :
  Score_leb beta (Score_max alpha s) = false →
  clamp alpha beta s = clamp alpha beta v →
  Score_max alpha s = Score_max alpha v.
Proof. intros; score_cases. Qed.

Lemma min_window_cut alpha beta s v :
  Score_ltb alpha beta = true →
  Score_leb (Score_min beta s) alpha = true →
  clamp alpha beta s = clamp alpha beta v →
  Score_leb s alpha = true ∧ Score_leb v alpha = true.
Proof. intros; split; score_cases. Qed.

Lemma min_window_step alpha beta s v :
  Score_leb (Score_min beta s) alpha = false →
  clamp alpha beta s = clamp alpha beta v →
  Score_min beta s = Score_min beta v.
Proof. intros; score_cases. Qed.

Lemma Score_max_NegInf_r a : Score_max a NegInf = a.
Proof. by destruct a. Qed.

Lemma Score_min_PosInf_r a : Score_min a PosInf = a.
Proof. by destruct a. Qed.

Lemma score_pick_max best res s :
  score res = s →
  score (if Score_ltb (score best) s then res else best)
  = Score_max (score best) s.
Proof. intros <-. unfold Score_max. by destruct (Score_ltb _ _). Qed.

Lemma score_pick_min best res s :
  score res = s →
  score (if Score_ltb s (score best) then res else best)
  = Score_min (score best) s.
Proof. intros <-. unfold Score_min. by destruct (Score_ltb _ _). Qed.

(** The reference fold returns once every successor has a value, and it
    only moves its accumulator in one direction. *)
Lemma bestOver_max_total child todo (b : Board) acc :
  (∀ i, i ∈ todo → b !! i = Some None → is_Some (child i)) →
  ∃ V, bestOver Score_max child todo b acc = Some V ∧ Score_leb acc V = true.
Proof.
  revert acc. induction todo as [|i rest IH]; intros acc Hc; simpl.
  - exists acc. split; [done|]. apply Score_leb_refl.
  - destruct (isNull (b !! i)) eqn:Hn.
    + apply isNull_true in Hn. destruct (Hc i) as [v Hv]; [left|done|].
      rewrite Hv.
      destruct (IH (Score_max acc v)) as (V & HV & Hle);
        [intros j Hj; apply Hc; by right|].
      exists V. split; [done|].
      eapply Score_leb_trans; [apply Score_leb_max_l|done].
    + apply IH. intros j Hj. apply Hc. by right.
Qed.

Lemma bestOver_min_total child todo (b : Board) acc :
  (∀ i, i ∈ todo → b !! i = Some None → is_Some (child i)) →
  ∃ V, bestOver Score_min child todo b acc = Some V ∧ Score_leb V acc = true.
Proof.
  revert acc. induction todo as [|i rest IH]; intros acc Hc; simpl.
  - exists acc. split; [done|]. apply Score_leb_refl.
  - destruct (isNull (b !! i)) eqn:Hn.
    + apply isNull_true in Hn. destruct (Hc i) as [v Hv]; [left|done|].
      rewrite Hv.
      destruct (IH (Score_min acc v)) as (V & HV & Hle);
        [intros j Hj; apply Hc; by right|].
      exists V. split; [done|].
      eapply Score_leb_trans; [done|apply Score_leb_min_l].
    + apply IH. intros j Hj. apply Hc. by right.
Qed.

(** The maximising loop against the reference fold.  [alpha0] is the bound
    the loop was entered with; the running [alpha] is [alpha0] raised by the
    answers so far, and equally [alpha0] raised by the true values so far. *)
Lemma maxLoop_sound rec child mark beta alpha0 todo (b : Board) :
  (∀ i a, i ∈ todo → b !! i = Some None → Score_ltb a beta = true →
     ∃ r v, rec (write b i (Some mark)) a = Some (r, write b i (Some mark))
          ∧ child i = Some v
          ∧ clamp a beta (score r) = clamp a beta v) →
  ∀ best alpha acc,
    alpha = Score_max alpha0 (score best) →
    alpha = Score_max alpha0 acc →
    Score_ltb alpha beta = true →
    ∃ r v, maxLoop rec mark beta todo best alpha b = Some (r, b)
         ∧ bestOver Score_max child todo b acc = Some v
         ∧ clamp alpha0 beta (score r) = clamp alpha0 beta v.
Proof.
  induction todo as [|i rest IH]; intros Hrec best alpha acc Hb Ha Hlt; simpl.
  - exists best, acc. split; [done|]. split; [done|].
    rewrite !clamp_max_inside; congruence.
  - assert (Hrest : ∀ j a, j ∈ rest → b !! j = Some None →
              Score_ltb a beta = true →
              ∃ r v, rec (write b j (Some mark)) a = Some (r, write b j (Some mark))
                   ∧ child j = Some v
                   ∧ clamp a beta (score r) = clamp a beta v)
      by (intros j a Hj; apply Hrec; by right).
    destruct (isNull (b !! i)) eqn:Hn; [|by apply IH].
    apply isNull_true in Hn.
    destruct (Hrec i alpha) as (r0 & v0 & Hr & Hc & Hcl); [left|done|done|].
    rewrite Hr, Hc, write_undo by done.
    set (res := setIndex r0 i).
    assert (Hres : score res = score r0) by done. clearbody res.
    destruct (Score_leb beta (Score_max alpha (score r0))) eqn:Hp.
    + destruct (bestOver_max_total child rest b (Score_max acc v0))
        as (V & HV & Hle).
      { intros j Hj Hnj. destruct (Hrest j alpha Hj Hnj Hlt) as (? & v & _ & -> & _).
        by eexists. }
      eexists _, V. split; [done|]. split; [done|].
      destruct (max_window_cut alpha beta (score r0) v0 Hlt Hp Hcl) as [Hs Hv].
      assert (Score_leb alpha0 beta = true) as H0.
      { apply Score_ltb_leb. eapply Score_leb_ltb_trans; [|exact Hlt].
        rewrite Hb. apply Score_leb_max_l. }
      rewrite (score_pick_max best res (score r0) Hres).
      rewrite !clamp_above; try done.
      * eapply Score_leb_trans; [exact Hv|].
        eapply Score_leb_trans; [apply Score_leb_max_r|exact Hle].
      * eapply Score_leb_trans; [exact Hs|apply Score_leb_max_r].
    + apply IH; [done| | |].
      * rewrite (score_pick_max best res (score r0) Hres).
        rewrite Hb. apply Score_max_assoc.
      * rewrite (max_window_step alpha beta (score r0) v0 Hp Hcl).
        rewrite Ha. apply Score_max_assoc.
      * by apply Score_leb_false.
Qed.

(** The minimising loop, likewise, with [beta0] lowered. *)
Lemma minLoop_sound rec child mark alpha beta0 todo (b : Board) :
  (∀ i bt, i ∈ todo → b !! i = Some None → Score_ltb alpha bt = true →
     ∃ r v, rec (write b i (Some mark)) bt = Some (r, write b i (Some mark))
          ∧ child i = Some v
          ∧ clamp alpha bt (score r) = clamp alpha bt v) →
  ∀ best beta acc,
    beta = Score_min beta0 (score best) →
    beta = Score_min beta0 acc →
    Score_ltb alpha beta = true →
    ∃ r v, minLoop rec mark alpha todo best beta b = Some (r, b)
         ∧ bestOver Score_min child todo b acc = Some v
         ∧ clamp alpha beta0 (score r) = clamp alpha beta0 v.
Proof.
  induction todo as [|i rest IH]; intros Hrec best beta acc Hb Ha Hlt; simpl.
  - exists best, acc. split; [done|]. split; [done|].
    rewrite !clamp_min_inside; congruence.
  - assert (Hrest : ∀ j bt, j ∈ rest → b !! j = Some None →
              Score_ltb alpha bt = true →
              ∃ r v, rec (write b j (Some mark)) bt = Some (r, write b j (Some mark))
                   ∧ child j = Some v
                   ∧ clamp alpha bt (score r) = clamp alpha bt v)
      by (intros j bt Hj; apply Hrec; by right).
    destruct (isNull (b !! i)) eqn:Hn; [|by apply IH].
    apply isNull_true in Hn.
    destruct (Hrec i beta) as (r0 & v0 & Hr & Hc & Hcl); [left|done|done|].
    rewrite Hr, Hc, write_undo by done.
    set (res := setIndex r0 i).
    assert (Hres : score res = score r0) by done. clearbody res.
    destruct (Score_leb (Score_min beta (score r0)) alpha) eqn:Hp.
    + destruct (bestOver_min_total child rest b (Score_min acc v0))
        as (V & HV & Hle).
      { intros j Hj Hnj. destruct (Hrest j beta Hj Hnj Hlt) as (? & v & _ & -> & _).
        by eexists. }
      eexists _, V. split; [done|]. split; [done|].
      destruct (min_window_cut alpha beta (score r0) v0 Hlt Hp Hcl) as [Hs Hv].
      assert (Score_leb alpha beta0 = true) as H0.
      { apply Score_ltb_leb. eapply Score_ltb_leb_trans; [exact Hlt|].
        rewrite Hb. apply Score_leb_min_l. }
      rewrite (score_pick_min best res (score r0) Hres).
      rewrite !clamp_below; try done.
      * eapply Score_leb_trans; [exact Hle|].
        eapply Score_leb_trans; [apply Score_leb_min_r|exact Hv].
      * eapply Score_leb_trans; [apply Score_leb_min_r|exact Hs].
    + apply IH; [done| | |].
      * rewrite (score_pick_min best res (score r0) Hres).
        rewrite Hb. apply Score_min_assoc.
      * rewrite (min_window_step alpha beta (score r0) v0 Hp Hcl).
        rewrite Ha. apply Score_min_assoc.
      * by apply Score_leb_false.
Qed.

Lemma terminalScore_evaluate (b : Board) ai x y :
  terminalScore b ai (otherMark ai) x y =
  match evaluate b with
  | Win w _ => Some (if Mark_eqb w ai then x else y)
  | Draw => Some 0
  | InProgress => None
  end.
Proof.
  unfold terminalScore, evaluate.
  destruct (checkWin b) as [[w l]|]; simpl.
  - by destruct w, ai.
  - by destruct (isDraw b).
Qed.

Lemma unprunedMinimax_fuel_S fuel (b : Board) ai isAi depth :
  unprunedMinimax_fuel (S fuel) b ai isAi depth =
  match evaluate b with
  | Win w _ => Some (Fin (if Mark_eqb w ai then 100 - depth else -100 + depth))
  | Draw => Some (Fin 0)
  | InProgress =>
      bestOver (if isAi then Score_max else Score_min)
        (fun i => unprunedMinimax_fuel fuel
                    (write b i (Some (if isAi then ai else otherMark ai))) ai
                    (negb isAi) (depth + 1))
        cells b (if isAi then NegInf else PosInf)
  end.
Proof. reflexivity. Qed.

(** Within any window [alpha < beta], the pruned search and the reference
    agree up to the window. *)
Lemma minimax_fuel_sound ai fuel :
  ∀ (b : Board) isAi alpha beta depth,
    (emptyCount b < fuel)%nat → Score_ltb alpha beta = true →
    ∃ r v, minimax_fuel fuel b ai (otherMark ai) isAi alpha beta depth = Some (r, b)
         ∧ unprunedMinimax_fuel fuel b ai isAi depth = Some v
         ∧ clamp alpha beta (score r) = clamp alpha beta v.
Proof.
  induction fuel as [|fuel IH]; intros b isAi alpha beta depth Hfuel Hlt; [lia|].
  rewrite minimax_fuel_S, unprunedMinimax_fuel_S, terminalScore_evaluate.
  destruct (evaluate b) as [|w l|]; [|by eauto|by eauto].
  destruct isAi.
  - apply (maxLoop_sound _ _ ai beta alpha cells b).
    + intros i a Hi%in_cells Hn Ha. apply IH; [|done].
      pose proof (emptyCount_write b i ai Hi Hn). lia.
    + simpl. by rewrite Score_max_NegInf_r.
    + by rewrite Score_max_NegInf_r.
    + done.
  - apply (minLoop_sound _ _ (otherMark ai) alpha beta cells b).
    + intros i bt Hi%in_cells Hn Ha. apply IH; [|done].
      pose proof (emptyCount_write b i (otherMark ai) Hi Hn). lia.
    + simpl. by rewrite Score_min_PosInf_r.
    + by rewrite Score_min_PosInf_r.
    + done.
Qed.

(** C3.  Called with the open window, the pruned search returns the score of
    the unpruned full-depth minimax, for every board, either mark as the
    engine's, either side to move and every starting depth.  Both return,
    and the pruned search hands the board back as it was. *)
Theorem pruning_preserves_value (b : Board) (aiMark : Mark) (aiToMove : bool)
    (depth : Z) :
  ∃ r v,
    minimax b aiMark (otherMark aiMark) aiToMove NegInf PosInf depth = Some (r, b)
    ∧ unprunedMinimax b aiMark aiToMove depth = Some v
    ∧ score r = v.
Proof.
  destruct (minimax_fuel_sound aiMark searchFuel b aiToMove NegInf PosInf depth)
    as (r & v & Hr & Hv & Hc); [|done|].
  { pose proof (emptyCount_le b). unfold searchFuel. lia. }
  exists r, v. split; [done|]. split; [done|].
  by rewrite !clamp_open in Hc.
Qed.

(** ** The search always finds a move on an unfinished board *)

Lemma forallb_not_null_false (b : Board) :
  forallb (fun cell => negb (isNull (Some cell))) b = false →
  ∃ i, b !! i = Some None.
Proof.
  induction b as [|c b IH]; simpl; [done|].
  destruct c as [m|]; simpl.
  - intros H. destruct (IH H) as [i Hi]. by exists (S i).
  - intros _. by exists 0%nat.
Qed.

Lemma nonterminal_has_empty (b : Board) ai hu x y :
  ai ≠ hu → terminalScore b ai hu x y = None →
  checkWin b = None ∧ ∃ i, b !! i = Some None.
Proof.
  intros Hne. unfold terminalScore, isDraw.
  destruct (checkWin b) as [[w l]|]; simpl.
  - destruct w, ai, hu; simpl; congruence.
  - rewrite andb_true_r.
    destruct (forallb _ b) eqn:Hf; [done|].
    intros _. split; [done|]. by apply forallb_not_null_false.
Qed.

Lemma maxLoop_finds rec mark beta todo (b : Board) :
  (∀ i a, i ∈ todo → b !! i = Some None →
     ∃ r z, rec (write b i (Some mark)) a = Some (r, write b i (Some mark))
          ∧ score r = Fin z) →
  (∀ i, i ∈ todo → (i < 9)%nat) →
  ∀ best alpha,
    score best = NegInf ∨ namesEmptyCell b best →
    ∃ r, maxLoop rec mark beta todo best alpha b = Some (r, b)
       ∧ (namesEmptyCell b r
          ∨ (r = best ∧ ∀ i, i ∈ todo → b !! i ≠ Some None)).
Proof.
  induction todo as [|i rest IH]; intros Hrec Hlt best alpha Hbest; simpl.
  - exists best. split; [done|]. right. split; [done|].
    intros i Hi. by apply not_elem_of_nil in Hi.
  - assert (Hrec' : ∀ j a, j ∈ rest → b !! j = Some None →
              ∃ r z, rec (write b j (Some mark)) a = Some (r, write b j (Some mark))
                   ∧ score r = Fin z)
      by (intros j a Hj; apply Hrec; by right).
    assert (Hlt' : ∀ j, j ∈ rest → (j < 9)%nat)
      by (intros j Hj; apply Hlt; by right).
    destruct (isNull (b !! i)) eqn:Hn.
    + apply isNull_true in Hn.
      destruct (Hrec i alpha) as (r0 & z & Hr & Hz); [left|done|].
      rewrite Hr, write_undo by done. rewrite Hz.
      assert (namesEmptyCell b (setIndex r0 i)) as Hres.
      { exists i, z. split; [done|]. split; [apply Hlt; left|]. by split. }
      assert (namesEmptyCell b
                (if Score_ltb (score best) (Fin z) then setIndex r0 i else best))
        as Hbest'.
      { destruct Hbest as [->|Hg]; [done|]. by destruct (Score_ltb _ _). }
      destruct (Score_leb beta _); [eauto|].
      destruct (IH Hrec' Hlt' _ (Score_max alpha (Fin z)) (or_intror Hbest'))
        as (r & Hl & [Hg|[-> _]]); eauto.
    + destruct (IH Hrec' Hlt' best alpha Hbest) as (r & Hl & [Hg|[-> Hnone]]);
        [eauto|].
      exists best. split; [done|]. right. split; [done|].
      intros j [->|Hj]%elem_of_cons; [|by apply Hnone].
      intros E. rewrite E in Hn. done.
Qed.

Lemma minLoop_finds rec mark alpha todo (b : Board) :
  (∀ i bt, i ∈ todo → b !! i = Some None →
     ∃ r z, rec (write b i (Some mark)) bt = Some (r, write b i (Some mark))
          ∧ score r = Fin z) →
  (∀ i, i ∈ todo → (i < 9)%nat) →
  ∀ best beta,
    score best = PosInf ∨ namesEmptyCell b best →
    ∃ r, minLoop rec mark alpha todo best beta b = Some (r, b)
       ∧ (namesEmptyCell b r
          ∨ (r = best ∧ ∀ i, i ∈ todo → b !! i ≠ Some None)).
Proof.
  induction todo as [|i rest IH]; intros Hrec Hlt best beta Hbest; simpl.
  - exists best. split; [done|]. right. split; [done|].
    intros i Hi. by apply not_elem_of_nil in Hi.
  - assert (Hrec' : ∀ j bt, j ∈ rest → b !! j = Some None →
              ∃ r z, rec (write b j (Some mark)) bt = Some (r, write b j (Some mark))
                   ∧ score r = Fin z)
      by (intros j bt Hj; apply Hrec; by right).
    assert (Hlt' : ∀ j, j ∈ rest → (j < 9)%nat)
      by (intros j Hj; apply Hlt; by right).
    destruct (isNull (b !! i)) eqn:Hn.
    + apply isNull_true in Hn.
      destruct (Hrec i beta) as (r0 & z & Hr & Hz); [left|done|].
      rewrite Hr, write_undo by done. rewrite Hz.
      assert (namesEmptyCell b (setIndex r0 i)) as Hres.
      { exists i, z. split; [done|]. split; [apply Hlt; left|]. by split. }
      assert (namesEmptyCell b
                (if Score_ltb (Fin z) (score best) then setIndex r0 i else best))
        as Hbest'.
      { destruct Hbest as [->|Hg]; [done|]. by destruct (Score_ltb _ _). }
      destruct (Score_leb _ alpha); [eauto|].
      destruct (IH Hrec' Hlt' _ (Score_min beta (Fin z)) (or_intror Hbest'))
        as (r & Hl & [Hg|[-> _]]); eauto.
    + destruct (IH Hrec' Hlt' best beta Hbest) as (r & Hl & [Hg|[-> Hnone]]);
        [eauto|].
      exists best. split; [done|]. right. split; [done|].
      intros j [->|Hj]%elem_of_cons; [|by apply Hnone].
      intros E. rewrite E in Hn. done.
Qed.

Lemma minimax_fuel_finds ai hu fuel :
  ai ≠ hu →
  ∀ (b : Board) isAi alpha beta depth,
    length b = 9%nat → (emptyCount b < fuel)%nat →
    ∃ r z, minimax_fuel fuel b ai hu isAi alpha beta depth = Some (r, b)
         ∧ score r = Fin z
         ∧ (terminalScore b ai hu (100 - depth) (-100 + depth) = None →
            namesEmptyCell b r).
Proof.
  intros Hne.
  induction fuel as [|fuel IH]; intros b isAi alpha beta depth Hlen Hfuel; [lia|].
  rewrite minimax_fuel_S.
  destruct (terminalScore b ai hu _ _) as [s|] eqn:Ht.
  { eexists _, s. split; [done|]. by split. }
  destruct (nonterminal_has_empty b ai hu _ _ Hne Ht) as [_ [e He]].
  assert (e ∈ cells) as Hein.
  { apply in_cells. apply lookup_lt_Some in He. lia. }
  assert (Hchild : ∀ mark isAi' i a bt, i ∈ cells → b !! i = Some None →
            ∃ r z, minimax_fuel fuel (write b i (Some mark)) ai hu isAi' a bt
                     (depth + 1) = Some (r, write b i (Some mark))
                 ∧ score r = Fin z).
  { intros mark isAi' i a bt Hi%in_cells Hn.
    destruct (IH (write b i (Some mark)) isAi' a bt (depth + 1))
      as (r & z & Hr & Hz & _).
    - unfold write. by rewrite length_insert.
    - pose proof (emptyCount_write b i mark Hi Hn). lia.
    - eauto. }
  destruct isAi.
  - destruct (maxLoop_finds
                (fun b' a => minimax_fuel fuel b' ai hu false a beta (depth + 1))
                ai beta cells b) with (best := mkResult (INum (-1)) NegInf)
                                      (alpha := alpha)
      as (r & Hr & [Hg|[_ Hnone]]).
    + intros i a. apply Hchild.
    + intros i. by apply in_cells.
    + by left.
    + destruct Hg as (i & z & Hg). exists r, z. split; [done|].
      split; [apply Hg|]. intros _. by exists i, z.
    + by destruct (Hnone e Hein).
  - destruct (minLoop_finds
                (fun b' bt => minimax_fuel fuel b' ai hu true alpha bt (depth + 1))
                hu alpha cells b) with (best := mkResult (INum (-1)) PosInf)
                                       (beta := beta)
      as (r & Hr & [Hg|[_ Hnone]]).
    + intros i bt. apply Hchild.
    + intros i. by apply in_cells.
    + by left.
    + destruct Hg as (i & z & Hg). exists r, z. split; [done|].
      split; [apply Hg|]. intros _. by exists i, z.
    + by destruct (Hnone e Hein).
Qed.

Lemma evaluate_InProgress_terminalScore (b : Board) ai x y :
  evaluate b = InProgress → terminalScore b ai (otherMark ai) x y = None.
Proof. intros H. by rewrite terminalScore_evaluate, H. Qed.

Lemma cellAt_of_nat (b : Board) (i : nat) : cellAt b (Z.of_nat i) = b !! i.
Proof.
  unfold cellAt. destruct (Z.ltb_spec (Z.of_nat i) 0); [lia|].
  by rewrite Nat2Z.id.
Qed.

Lemma needsFallback_empty (b : Board) (i : nat) :
  (i < 9)%nat → b !! i = Some None → needsFallback b (INum (Z.of_nat i)) = false.
Proof.
  intros Hi Hn. unfold needsFallback. rewrite cellAt_of_nat, Hn. simpl.
  destruct (Z.ltb_spec (Z.of_nat i) 0); [lia|].
  destruct (Z.ltb_spec 8 (Z.of_nat i)); [lia|]. done.
Qed.

Lemma all_null_lookup (b : Board) (i : nat) :
  forallb (fun cell => isNull (Some cell)) b = true →
  (i < length b)%nat → b !! i = Some None.
Proof.
  revert i. induction b as [|c b IH]; intros i H Hi; simpl in *; [lia|].
  apply andb_true_iff in H as [Hc H].
  destruct i as [|i]; simpl.
  - by destruct c.
  - apply IH; [done|lia].
Qed.

Lemma aiMinimaxMove_names_empty (b : Board) ai rnd :
  length b = 9%nat → evaluate b = InProgress →
  ∃ i, aiMinimaxMove b ai rnd = Some (INum (Z.of_nat i))
       ∧ (i < 9)%nat ∧ b !! i = Some None.
Proof.
  intros Hlen Hev. unfold aiMinimaxMove.
  destruct (forallb _ b) eqn:Hall.
  - assert (randomBelow rnd 4 < 4)%nat as Hr
      by (unfold randomBelow; apply Nat.mod_upper_bound; lia).
    destruct (randomBelow rnd 4) as [|[|[|[|k]]]]; [| | | |lia]; simpl;
      eexists; (split; [done|]); (split; [lia|]);
      apply all_null_lookup; (done || lia).
  - destruct (minimax_fuel_finds ai (otherMark ai) searchFuel)
      with (b := b) (isAi := true) (alpha := NegInf) (beta := PosInf) (depth := 0)
      as (r & z & Hr & _ & Hg).
    + intros E. by apply (otherMark_ne ai).
    + done.
    + pose proof (emptyCount_le b). unfold searchFuel. lia.
    + unfold minimax. rewrite Hr.
      destruct Hg as (i & z' & Hi & Hlt & Hn & _).
      { by apply evaluate_InProgress_terminalScore. }
      exists i. by rewrite Hi.
Qed.

(** C10.  On a nine-cell board with no complete line and an empty cell, the
    search never answers with its [-1] sentinel, whatever the side to move,
    the window and the depth: its result names an empty cell of the board
    and carries a finite score.  Hence [aiMinimaxMove] returns the index of
    an empty cell, on which the test for the random fallback of [aiMakeMove]
    is false. *)
Theorem minimax_never_returns_sentinel (b : Board) (aiSymbol : Mark) :
  length b = 9%nat →
  evaluate b = InProgress →
  (∀ isAiTurn alpha beta depth,
     ∃ r i z,
       minimax b aiSymbol (otherMark aiSymbol) isAiTurn alpha beta depth
         = Some (r, b)
       ∧ index r = INum (Z.of_nat i) ∧ index r ≠ INum (-1)
       ∧ (i < 9)%nat ∧ b !! i = Some None
       ∧ score r = Fin z)
  ∧ (∀ rnd,
       ∃ i, aiMinimaxMove b aiSymbol rnd = Some (INum (Z.of_nat i))
            ∧ (i < 9)%nat ∧ b !! i = Some None
            ∧ needsFallback b (INum (Z.of_nat i)) = false).
Proof.
  intros Hlen Hev. split.
  - intros isAiTurn alpha beta depth.
    destruct (minimax_fuel_finds aiSymbol (otherMark aiSymbol) searchFuel)
      with (b := b) (isAi := isAiTurn) (alpha := alpha) (beta := beta)
           (depth := depth)
      as (r & z & Hr & _ & Hg).
    + intros E. by apply (otherMark_ne aiSymbol).
    + done.
    + pose proof (emptyCount_le b). unfold searchFuel. lia.
    + destruct Hg as (i & z' & Hi & Hlt & Hn & Hz).
      { by apply evaluate_InProgress_terminalScore. }
      exists r, i, z'. repeat split; try done.
      rewrite Hi. intros [= E]. lia.
  - intros rnd.
    destruct (aiMinimaxMove_names_empty b aiSymbol rnd Hlen Hev)
      as (i & Hm & Hi & Hn).
    exists i. repeat split; try done. by apply needsFallback_empty.
Qed.

Lemma minimax_never_returns_sentinel_witness :
  let b := [Some X; None; None; None; Some O; None; None; None; None] in
  (∀ isAiTurn alpha beta depth,
     ∃ r i z,
       minimax b X (otherMark X) isAiTurn alpha beta depth = Some (r, b)
       ∧ index r = INum (Z.of_nat i) ∧ index r ≠ INum (-1)
       ∧ (i < 9)%nat ∧ b !! i = Some None
       ∧ score r = Fin z)
  ∧ (∀ rnd,
       ∃ i, aiMinimaxMove b X rnd = Some (INum (Z.of_nat i))
            ∧ (i < 9)%nat ∧ b !! i = Some None
            ∧ needsFallback b (INum (Z.of_nat i)) = false).
Proof.
  apply (minimax_never_returns_sentinel
           [Some X; None; None; None; Some O; None; None; None; None] X);
    reflexivity.
Defined.

(** ** The heuristic strategy wins when it can and blocks when it must *)

Lemma WINNING_LINES_bound (l : Line) :
  l ∈ WINNING_LINES → (l.1.1 < 9 ∧ l.1.2 < 9 ∧ l.2 < 9)%nat.
Proof.
  unfold WINNING_LINES. rewrite !elem_of_cons, elem_of_nil.
  intros [->|[->|[->|[->|[->|[->|[->|[->|[]]]]]]]]]; simpl; lia.
Qed.

(** On a board without a complete line, a line that is complete after one
    write runs through the written cell and belongs to the written mark. *)
Lemma complete_after_write (b : Board) (i : nat) (m w : Mark) (l : Line) :
  noCompleteLine b → l ∈ WINNING_LINES → b !! i = Some None →
  completeFor (write b i (Some m)) w l →
  w = m ∧ (i = l.1.1 ∨ i = l.1.2 ∨ i = l.2).
Proof.
  intros Hno Hl Hn (Ha & Hb & Hc). unfold write in *.
  assert (i < length b)%nat as Hi by by eapply lookup_lt_Some.
  destruct (decide (i = l.1.1)) as [->|Na].
  { rewrite list_lookup_insert_eq in Ha by done. split; [congruence|by left]. }
  destruct (decide (i = l.1.2)) as [->|Nb].
  { rewrite list_lookup_insert_eq in Hb by done. split; [congruence|auto]. }
  destruct (decide (i = l.2)) as [->|Nc].
  { rewrite list_lookup_insert_eq in Hc by done. split; [congruence|auto]. }
  rewrite list_lookup_insert_ne in Ha, Hb, Hc by done.
  exfalso. apply (Hno l Hl). by exists w.
Qed.

Lemma completesLine_checkWin (b : Board) (m : Mark) (i : nat) :
  checkWin b = None → b !! i = Some None →
  completesLine b m i ↔ is_Some (checkWin (write b i (Some m))).
Proof.
  intros Hno%checkWin_None Hn. split.
  - intros (_ & l & Hl & Hc).
    destruct (checkWin (write b i (Some m))) eqn:E; [by eexists|].
    apply checkWin_None in E. exfalso. apply (E l Hl). by exists m.
  - intros [w Hw]. split; [done|].
    apply checkWinIn_Some in Hw as (pre & post & Heq & _ & Hc).
    assert (line w ∈ WINNING_LINES) as Hl.
    { fold WINNING_LINES in Heq. rewrite Heq. apply elem_of_app. right. left. }
    exists (line w). split; [done|].
    destruct (complete_after_write b i m (winner w) (line w)) as [<- _]; done.
Qed.

Lemma completesLine_in_cells (b : Board) (m : Mark) (i : nat) :
  checkWin b = None → completesLine b m i → i ∈ cells.
Proof.
  intros Hno%checkWin_None (Hn & l & Hl & Hc).
  destruct (complete_after_write b i m m l) as [_ Hi]; try done.
  apply in_cells. pose proof (WINNING_LINES_bound l Hl). lia.
Qed.

(** What the loops of steps 1 and 2 find. *)
Lemma findCompleting_Some mark todo (b : Board) (i : nat) :
  (findCompleting mark todo b).1 = Some i →
  i ∈ todo ∧ b !! i = Some None ∧ is_Some (checkWin (write b i (Some mark))).
Proof.
  induction todo as [|j rest IH]; simpl; [done|].
  destruct (isNull (b !! j)) eqn:Hn.
  - apply isNull_true in Hn. rewrite write_undo by done.
    destruct (bool_decide _) eqn:Hd; simpl.
    + intros [= ->]. apply bool_decide_eq_true in Hd. split; [left|done].
    + intros H. destruct (IH H) as (? & ? & ?). split; [by right|done].
  - intros H. destruct (IH H) as (? & ? & ?). split; [by right|done].
Qed.

Lemma findCompleting_None mark todo (b : Board) :
  (findCompleting mark todo b).1 = None →
  ∀ i, i ∈ todo → b !! i = Some None →
       ¬ is_Some (checkWin (write b i (Some mark))).
Proof.
  induction todo as [|j rest IH]; simpl.
  - intros _ i Hi. by apply not_elem_of_nil in Hi.
  - destruct (isNull (b !! j)) eqn:Hn.
    + apply isNull_true in Hn. rewrite write_undo by done.
      destruct (bool_decide _) eqn:Hd; simpl; [done|].
      apply bool_decide_eq_false in Hd.
      intros H i [->|Hi]%elem_of_cons; [by intros _|by apply IH].
    + intros H i [->|Hi]%elem_of_cons; [|by apply IH].
      intros E. rewrite E in Hn. done.
Qed.

Lemma aiDifficultMove_takes_win (b : Board) ai rnd :
  checkWin b = None → (∃ i, completesLine b ai i) →
  ∃ j, aiDifficultMove b ai rnd = Some (INum (Z.of_nat j), b)
       ∧ completesLine b ai j.
Proof.
  intros Hno [i Hi]. unfold aiDifficultMove.
  pose proof (findCompleting_restores ai cells b) as Hb.
  destruct (findCompleting ai cells b) as [[j|] b1] eqn:E; simpl in Hb; subst b1.
  - exists j. split; [done|].
    destruct (findCompleting_Some ai cells b j) as (_ & Hn & Hw); [by rewrite E|].
    by apply completesLine_checkWin.
  - exfalso.
    apply (findCompleting_None ai cells b) with (i := i).
    + by rewrite E.
    + by eapply completesLine_in_cells.
    + apply Hi.
    + apply completesLine_checkWin; [done|apply Hi|done].
Qed.

Lemma aiDifficultMove_blocks (b : Board) ai rnd :
  checkWin b = None → (∀ i, ¬ completesLine b ai i) →
  (∃ i, completesLine b (otherMark ai) i) →
  ∃ j, aiDifficultMove b ai rnd = Some (INum (Z.of_nat j), b)
       ∧ completesLine b (otherMark ai) j.
Proof.
  intros Hno Hnowin [i Hi]. unfold aiDifficultMove.
  pose proof (findCompleting_restores ai cells b) as Hb.
  destruct (findCompleting ai cells b) as [[j|] b1] eqn:E; simpl in Hb; subst b1.
  { exfalso. apply (Hnowin j).
    destruct (findCompleting_Some ai cells b j) as (_ & Hn & Hw); [by rewrite E|].
    by apply completesLine_checkWin. }
  pose proof (findCompleting_restores (otherMark ai) cells b) as Hb.
  destruct (findCompleting (otherMark ai) cells b) as [[j|] b1] eqn:E2;
    simpl in Hb; subst b1.
  - exists j. split; [done|].
    destruct (findCompleting_Some (otherMark ai) cells b j) as (_ & Hn & Hw);
      [by rewrite E2|].
    by apply completesLine_checkWin.
  - exfalso.
    apply (findCompleting_None (otherMark ai) cells b) with (i := i).
    + by rewrite E2.
    + by eapply completesLine_in_cells.
    + apply Hi.
    + apply completesLine_checkWin; [done|apply Hi|done].
Qed.

(** C5.  On a board of a game in progress (no line complete yet),
    [aiDifficultMove] returns a cell that completes a line for its own mark
    whenever there is one, and otherwise a cell that would complete a line
    for the opponent whenever there is one.  On [X,X,_,O,O,_,_,_,_] with
    mark X it returns 2, and on [O,O,_,_,X,_,_,_,_] with mark X it returns 2;
    both boards come back unchanged. *)
Theorem aiDifficultMove_wins_or_blocks :
  (∀ (b : Board) (aiSymbol : Mark) (rnd : nat),
     checkWin b = None →
     ((∃ i, completesLine b aiSymbol i) →
      ∃ j, aiDifficultMove b aiSymbol rnd = Some (INum (Z.of_nat j), b)
           ∧ completesLine b aiSymbol j)
     ∧ ((∀ i, ¬ completesLine b aiSymbol i) →
        (∃ i, completesLine b (otherMark aiSymbol) i) →
        ∃ j, aiDifficultMove b aiSymbol rnd = Some (INum (Z.of_nat j), b)
             ∧ completesLine b (otherMark aiSymbol) j))
  ∧ (∀ rnd,
       aiDifficultMove
         [Some X; Some X; None; Some O; Some O; None; None; None; None] X rnd
       = Some (INum 2,
               [Some X; Some X; None; Some O; Some O; None; None; None; None]))
  ∧ (∀ rnd,
       aiDifficultMove
         [Some O; Some O; None; None; Some X; None; None; None; None] X rnd
       = Some (INum 2,
               [Some O; Some O; None; None; Some X; None; None; None; None])).
Proof.
  split; [|split].
  - intros b aiSymbol rnd Hno. split.
    + by apply aiDifficultMove_takes_win.
    + by apply aiDifficultMove_blocks.
  - intros rnd. reflexivity.
  - intros rnd. reflexivity.
Qed.

Lemma aiDifficultMove_wins_or_blocks_witness :
  let b := [Some X; Some X; None; Some O; Some O; None; None; None; None] in
  checkWin b = None
  ∧ (∃ i, completesLine b X i)
  ∧ ∃ j, aiDifficultMove b X 0 = Some (INum (Z.of_nat j), b)
         ∧ completesLine b X j.
Proof.
  split; [reflexivity|].
  assert (∃ i,
            completesLine
              [Some X; Some X; None; Some O; Some O; None; None; None; None] X i)
    as Hex.
  { exists 2%nat. split; [reflexivity|].
    exists (0, 1, 2)%nat. split; [left|]. by repeat split. }
  split; [exact Hex|].
  exact (proj1 (proj1 aiDifficultMove_wins_or_blocks
                  [Some X; Some X; None; Some O; Some O; None; None; None; None]
                  X 0%nat eq_refl) Hex).
Defined.

(** ** The selector always places a mark on an empty cell *)

Lemma emptyIndices_spec (b : Board) (i : nat) :
  i ∈ emptyIndices b ↔ b !! i = Some None.
Proof.
  unfold emptyIndices. rewrite list_elem_of_In, in_concat. split.
  - intros (l & Hl & Hi). apply list_elem_of_In, elem_of_lookup_imap in Hl.
    destruct Hl as (j & c & -> & Hj). destruct c as [m|]; simpl in Hi.
    + done.
    + destruct Hi as [<-|[]]. done.
  - intros H. exists [i]. split; [|by left].
    apply list_elem_of_In, elem_of_lookup_imap. by exists i, None.
Qed.

Lemma aiRandomMove_empty (b : Board) (rnd : nat) :
  (∃ i, b !! i = Some None) →
  ∃ j, aiRandomMove b rnd = INum (Z.of_nat j) ∧ b !! j = Some None.
Proof.
  intros [i Hi%emptyIndices_spec]. unfold aiRandomMove.
  destruct (emptyIndices b) as [|e es] eqn:E; [by apply not_elem_of_nil in Hi|].
  simpl length. simpl Nat.eqb. cbv iota.
  assert (randomBelow rnd (S (length es)) < length (e :: es))%nat as Hlt.
  { unfold randomBelow. cbn [length]. apply Nat.mod_upper_bound. lia. }
  apply lookup_lt_is_Some_2 in Hlt as [j Hj]. rewrite Hj.
  exists j. split; [done|]. apply emptyIndices_spec. rewrite E.
  by eapply list_elem_of_lookup_2.
Qed.

Lemma aiMinimaxMove_returns (b : Board) ai rnd :
  ∃ idx, aiMinimaxMove b ai rnd = Some idx.
Proof.
  unfold aiMinimaxMove. destruct (forallb _ b).
  - destruct (_ !! _); eauto.
  - destruct (minimax_restores b ai (otherMark ai) true NegInf PosInf 0)
      as [r ->]. eauto.
Qed.

(** The index [aiMakeMove] passes to [makeMove], after its fallback. *)
Lemma fallback_names_empty (b : Board) (idx : Index) (rnd' : nat) :
  length b = 9%nat → (∃ i, b !! i = Some None) →
  ∃ j, (if needsFallback b idx then aiRandomMove b rnd' else idx)
         = INum (Z.of_nat j)
       ∧ (j < 9)%nat ∧ b !! j = Some None.
Proof.
  intros Hlen Hex.
  destruct (needsFallback b idx) eqn:Hf.
  - destruct (aiRandomMove_empty b rnd' Hex) as (j & -> & Hj).
    exists j. split; [done|]. split; [|done].
    apply lookup_lt_Some in Hj. lia.
  - destruct idx as [| |n]; simpl in Hf; try done.
    apply orb_false_iff in Hf as [Hf Hnull].
    apply orb_false_iff in Hf as [H0 H8].
    apply Z.ltb_ge in H0, H8. apply negb_false_iff, isNull_true in Hnull.
    exists (Z.to_nat n). rewrite Z2Nat.id by done.
    split; [done|]. split; [lia|].
    unfold cellAt in Hnull. by destruct (Z.ltb_spec n 0); [lia|].
Qed.

Lemma makeMove_writes (s : Session) (j : nat) (mark : Mark) :
  board s !! j = Some None →
  board (makeMove (INum (Z.of_nat j)) mark s).2 = write (board s) j (Some mark).
Proof.
  intros Hj. unfold makeMove. simpl readAt. rewrite cellAt_of_nat, Hj.
  simpl. rewrite Nat2Z.id.
  destruct (checkWin _); [done|]. by destruct (isDraw _).
Qed.

Lemma withBoard_same (s : Session) : withBoard (board s) s = s.
Proof. by destruct s. Qed.

Lemma aiMakeMove_places (s : Session) (rnd rnd' : nat) :
  running s = true → length (board s) = 9%nat →
  (∃ i, board s !! i = Some None) →
  ∃ s' j, aiMakeMove rnd rnd' s = Some s'
        ∧ (j < 9)%nat ∧ board s !! j = Some None
        ∧ board s' = write (board s) j
                       (Some (if String.eqb (playerSymbol s) "X" then O else X)).
Proof.
  intros Hrun Hlen Hex. unfold aiMakeMove. rewrite Hrun. simpl negb. cbv iota.
  set (ai := if String.eqb (playerSymbol s) "X" then O else X).
  set (level := orElse _ _).
  assert (∃ idx,
    (if String.eqb level "easy" then Some (aiRandomMove (board s) rnd, board s)
     else if String.eqb level "difficult" then aiDifficultMove (board s) ai rnd
     else match aiMinimaxMove (board s) ai rnd with
          | Some idx => Some (idx, board s)
          | None => None
          end) = Some (idx, board s)) as [idx ->].
  { destruct (String.eqb level "easy"); [eauto|].
    destruct (String.eqb level "difficult").
    - apply aiDifficultMove_restores.
    - destruct (aiMinimaxMove_returns (board s) ai rnd) as [idx ->]. eauto. }
  rewrite withBoard_same.
  destruct (fallback_names_empty (board s) idx rnd' Hlen Hex) as (j & -> & Hj & Hn).
  eexists _, j. split; [done|]. split; [done|]. split; [done|].
  by apply makeMove_writes.
Qed.

(** C6.  In a running session whose nine-cell board has an empty cell,
    [aiMakeMove] returns and has placed the engine's mark on a cell of index
    0 to 8 that was empty, leaving every other cell alone; this holds for
    every difficulty string and every outcome of the random draws, the
    fallback included. *)
Theorem aiMakeMove_applies_legal_move (s : Session) (rnd rnd' : nat) :
  running s = true →
  length (board s) = 9%nat →
  (∃ i, board s !! i = Some None) →
  ∃ s' j, aiMakeMove rnd rnd' s = Some s'
        ∧ (j < 9)%nat
        ∧ board s !! j = Some None
        ∧ board s' = write (board s) j
                       (Some (if String.eqb (playerSymbol s) "X" then O else X)).
Proof. apply aiMakeMove_places. Qed.

Lemma aiMakeMove_applies_legal_move_witness :
  let s := mkSession
             [Some X; None; None; None; None; None; None; None; None]
             O true "pvc" "hard" "X" (mkScores 0 0 0) [] None (INum 0)
             "pvc" "hard" "X" (Turn O) 0 in
  ∃ s' j, aiMakeMove 0 0 s = Some s'
        ∧ (j < 9)%nat
        ∧ board s !! j = Some None
        ∧ board s' = write (board s) j
                       (Some (if String.eqb (playerSymbol s) "X" then O else X)).
Proof.
  apply (aiMakeMove_applies_legal_move
           (mkSession
              [Some X; None; None; None; None; None; None; None; None]
              O true "pvc" "hard" "X" (mkScores 0 0 0) [] None (INum 0)
              "pvc" "hard" "X" (Turn O) 0) 0 0).
  - reflexivity.
  - reflexivity.
  - exists 1%nat. reflexivity.
Defined.

(** ** Rejected moves leave the game untouched *)

Lemma cellAt_outside (b : Board) (idx : Z) :
  length b = 9%nat → idx < 0 ∨ 8 < idx → cellAt b idx = None.
Proof.
  intros Hlen [H|H]; unfold cellAt.
  - by destruct (Z.ltb_spec idx 0); [|lia].
  - destruct (Z.ltb_spec idx 0); [done|]. apply lookup_ge_None_2. lia.
Qed.

Lemma humanMove_announces (s : Session) (idx : Z) :
  length (board s) = 9%nat → mustReject idx s →
  ∃ msg, humanMove idx s = announce msg s.
Proof.
  intros Hlen Hrej. unfold humanMove.
  destruct (running s) eqn:Hrun; simpl; [|eauto].
  destruct (isNull (cellAt (board s) idx)) eqn:Hnull; simpl; [|eauto].
  apply isNull_true in Hnull.
  destruct Hrej as [Hr|[Hout|[[m Hm]|[Hmode Hturn]]]].
  - congruence.
  - rewrite cellAt_outside in Hnull; done.
  - congruence.
  - rewrite Hmode. simpl.
    apply String.eqb_neq in Hturn. rewrite Hturn. simpl. eauto.
Qed.

Lemma makeMove_guard (s : Session) (idx : Index) (mark : Mark) :
  isNull (readAt (board s) idx) = false → makeMove idx mark s = (false, s).
Proof. intros H. unfold makeMove. by rewrite H. Qed.

(** C4.  A click is refused when the game is not running, when the index is
    outside 0..8, when the cell is occupied, or when, in human-vs-AI mode,
    the human's mark is not the one whose turn it is.  A refused click only
    changes the status line: the board, the current player, the running
    flag, the scores, the history, the winning line, the last move and the
    pending AI moves are as before, so no cell is written.  [makeMove]
    itself refuses, with [false] and the session unchanged, any index whose
    cell is not [null]. *)
Theorem rejected_move_changes_nothing (s : Session) (idx : Z) :
  length (board s) = 9%nat →
  mustReject idx s →
  (∃ msg, humanMove idx s = announce msg s)
  ∧ board (humanMove idx s) = board s
  ∧ currentPlayer (humanMove idx s) = currentPlayer s
  ∧ running (humanMove idx s) = running s
  ∧ scores (humanMove idx s) = scores s
  ∧ history (humanMove idx s) = history s
  ∧ winningLine (humanMove idx s) = winningLine s
  ∧ lastMoveIndex (humanMove idx s) = lastMoveIndex s
  ∧ pendingAiMoves (humanMove idx s) = pendingAiMoves s
  ∧ (∀ mark, (idx < 0 ∨ 8 < idx ∨ ∃ m, cellAt (board s) idx = Some (Some m)) →
             makeMove (INum idx) mark s = (false, s)).
Proof.
  intros Hlen Hrej.
  destruct (humanMove_announces s idx Hlen Hrej) as [msg Hmsg].
  split; [eauto|]. rewrite Hmsg. repeat (split; [done|]).
  intros mark H. apply makeMove_guard. simpl.
  destruct H as [H|[H|[m H]]].
  - rewrite cellAt_outside; auto.
  - rewrite cellAt_outside; auto.
  - by rewrite H.
Qed.

Lemma rejected_move_changes_nothing_witness :
  let s := mkSession
             [Some X; None; None; None; Some O; None; None; None; None]
             X true "pvc" "easy" "X" (mkScores 0 0 0) [] None (INum 4)
             "pvc" "easy" "X" (Turn X) 0 in
  (∃ msg, humanMove 4 s = announce msg s)
  ∧ board (humanMove 4 s) = board s
  ∧ currentPlayer (humanMove 4 s) = currentPlayer s
  ∧ running (humanMove 4 s) = running s
  ∧ scores (humanMove 4 s) = scores s
  ∧ history (humanMove 4 s) = history s
  ∧ winningLine (humanMove 4 s) = winningLine s
  ∧ lastMoveIndex (humanMove 4 s) = lastMoveIndex s
  ∧ pendingAiMoves (humanMove 4 s) = pendingAiMoves s
  ∧ (∀ mark, (4 < 0 ∨ 8 < 4 ∨ ∃ m, cellAt (board s) 4 = Some (Some m)) →
             makeMove (INum 4) mark s = (false, s)).
Proof.
  apply (rejected_move_changes_nothing
           (mkSession
              [Some X; None; None; None; Some O; None; None; None; None]
              X true "pvc" "easy" "X" (mkScores 0 0 0) [] None (INum 4)
              "pvc" "easy" "X" (Turn X) 0) 4).
  - reflexivity.
  - right. right. left. exists O. reflexivity.
Defined.

(** ** Starting a game *)

(** C9, as stated, fails: with the mode ["blitz"] and the difficulty
    ["impossible"], [startGame] does not leave the board and the running
    flag as they were; it clears the board and starts the game. *)
Lemma startGame_accepts_unknown_configuration :
  ¬ (board (startGame strangeConfiguration) = board strangeConfiguration
     ∧ running (startGame strangeConfiguration) = running strangeConfiguration
     ∧ currentPlayer (startGame strangeConfiguration)
       = currentPlayer strangeConfiguration)
  ∧ board (startGame strangeConfiguration) = emptyBoard
  ∧ running (startGame strangeConfiguration) = true
  ∧ mode (startGame strangeConfiguration) = "blitz"%string
  ∧ aiLevel (startGame strangeConfiguration) = "impossible"%string.
Proof.
  split; [|by repeat split]. intros (Hb & _ & _). discriminate Hb.
Qed.

(** C9, amended.  [startGame] checks nothing: whatever strings the selects
    hold, it clears the board to nine empty cells, sets the game running
    with X to move, stores the three strings as they are, keeps the scores
    and the history, and schedules one AI move exactly when the mode is
    ["pvc"] and the player's symbol is not ["X"]. *)
Theorem startGame_always_starts (s : Session) :
  board (startGame s) = replicate 9 None
  ∧ running (startGame s) = true
  ∧ currentPlayer (startGame s) = X
  ∧ mode (startGame s) = modeSelect s
  ∧ aiLevel (startGame s) = aiLevelSelect s
  ∧ playerSymbol (startGame s) = playerSymbolSelect s
  ∧ winningLine (startGame s) = None
  ∧ lastMoveIndex (startGame s) = INull
  ∧ scores (startGame s) = scores s
  ∧ history (startGame s) = history s
  ∧ (modeSelect s = "pvc"%string ∧ playerSymbolSelect s ≠ "X"%string →
     pendingAiMoves (startGame s) = S (pendingAiMoves s))
  ∧ (¬ (modeSelect s = "pvc"%string ∧ playerSymbolSelect s ≠ "X"%string) →
     pendingAiMoves (startGame s) = pendingAiMoves s).
Proof.
  repeat (split; [done|]).
  unfold startGame. simpl.
  destruct (String.eqb_spec (modeSelect s) "pvc") as [Hm|Hm];
    destruct (String.eqb_spec (playerSymbolSelect s) "X") as [Hp|Hp]; simpl;
    split; try done; intros H; try done; try (by destruct H).
  all: exfalso; apply H; by split.
Qed.

(** ** A restart does not cancel a pending AI move *)

(** C8 fails on the code.  After the restart the board is empty, X is to
    move and the reply scheduled in the previous game is still pending.
    When its timer fires, [aiMakeMove] finds [running] true and puts an O in
    the centre of the new board, although no X has been played in the new
    game and it is not the AI's turn. *)
Theorem stale_ai_move_is_applied_after_restart :
  ∃ s s',
    restartedWithPendingMove = Some s
    ∧ board s = emptyBoard
    ∧ currentPlayer s = X
    ∧ playerSymbol s = "X"%string
    ∧ pendingAiMoves s = 1%nat
    ∧ step s (TimerFired 0 0) = Some s'
    ∧ board s' = [None; None; None; None; Some O; None; None; None; None]
    ∧ board s' ≠ board s.
Proof.
  eexists _, _. split; [reflexivity|]. repeat (split; [reflexivity|]).
  discriminate.
Qed.

(** ** The optimal strategy against itself *)

Lemma selfPlay_S fuel (b : Board) toMove rnd turn :
  selfPlay (S fuel) b toMove rnd turn =
  match evaluate b with
  | InProgress =>
      match aiMinimaxMove b toMove (rnd turn) with
      | Some (INum n) =>
          if isNull (cellAt b n)
          then selfPlay fuel (write b (Z.to_nat n) (Some toMove))
                 (otherMark toMove) rnd (S turn)
          else None
      | _ => None
      end
  | _ => Some b
  end.
Proof. reflexivity. Qed.

(** On the empty board the search is skipped for a random corner. *)
Lemma aiMinimaxMove_opening (aiSymbol : Mark) (r : nat) :
  aiMinimaxMove emptyBoard aiSymbol r =
  match [0; 2; 6; 8]%nat !! randomBelow r 4 with
  | Some c => Some (INum (Z.of_nat c))
  | None => Some IUndefined
  end.
Proof. reflexivity. Qed.

(** C1.  From the empty board, whichever mark moves first and whatever the
    random draws are (so whichever corner the opening shortcut picks), the
    game of [aiMinimaxMove] against itself ends, and its final board
    evaluates to [Draw]. *)
Theorem optimal_self_play_draws (first : Mark) (rnd : nat → nat) :
  ∃ final,
    selfPlay 10 emptyBoard first rnd 0 = Some final
    ∧ evaluate final = Draw.
Proof.
  assert (randomBelow (rnd 0%nat) 4 < 4)%nat as Hlt
    by (unfold randomBelow; apply Nat.mod_upper_bound; lia).
  rewrite selfPlay_S.
  change (evaluate emptyBoard) with InProgress. cbv iota.
  rewrite aiMinimaxMove_opening.
  destruct (randomBelow (rnd 0%nat) 4) as [|[|[|[|k]]]]; [| | | |lia];
    destruct first; eexists;
    (split; [vm_compute; reflexivity|vm_compute; reflexivity]).
Qed.

(** ** What every reachable session satisfies

    The strategies are only ever handed the board of a running session.
    Such a board has nine cells, no complete line and an empty cell: the
    situation in which the results on [aiDifficultMove], [aiMinimaxMove] and
    [aiMakeMove] above are stated. *)

Lemma length_write (b : Board) (i : nat) (v : option Mark) :
  length (write b i v) = length b.
Proof. unfold write. apply length_insert. Qed.

Lemma makeMove_wellFormed (idx : Index) (mark : Mark) (s : Session) :
  wellFormed s → wellFormed (makeMove idx mark s).2.
Proof.
  intros [Hlen Hrun]. unfold makeMove.
  destruct (negb (isNull (readAt (board s) idx))); [done|].
  destruct idx as [| |n]; [done|done|].
  destruct (checkWin _) as [win|] eqn:Hw; cbn [snd].
  - split; cbn [board running]; [by rewrite length_write|done].
  - destruct (isDraw _) eqn:Hd; cbn [snd].
    + split; cbn [board running]; [by rewrite length_write|done].
    + split; cbn [board running]; [by rewrite length_write|].
      intros _. unfold evaluate. by rewrite Hw, Hd.
Qed.

Lemma aiMakeMove_shape (s : Session) (rnd rnd' : nat) :
  ∃ idx,
    aiMakeMove rnd rnd' s
    = Some (if running s
            then (makeMove idx
                    (if String.eqb (playerSymbol s) "X" then O else X) s).2
            else s).
Proof.
  unfold aiMakeMove. destruct (running s); simpl; [|by exists INull].
  set (ai := if String.eqb (playerSymbol s) "X" then O else X).
  set (level := orElse _ _).
  destruct (String.eqb level "easy").
  { rewrite withBoard_same. eauto. }
  destruct (String.eqb level "difficult").
  - destruct (aiDifficultMove_restores (board s) ai rnd) as [idx ->].
    rewrite withBoard_same. eauto.
  - destruct (aiMinimaxMove_returns (board s) ai rnd) as [idx ->].
    rewrite withBoard_same. eauto.
Qed.

(** No event gets the session stuck: in particular no search ever runs out
    of fuel. *)
Lemma step_total (s : Session) (e : Event) : ∃ s', step s e = Some s'.
Proof.
  destruct e; simpl; eauto.
  destruct (pendingAiMoves s); [eauto|].
  destruct (aiMakeMove_shape
              (mkSession (board s) (currentPlayer s) (running s) (mode s)
                 (aiLevel s) (playerSymbol s) (scores s) (history s)
                 (winningLine s) (lastMoveIndex s) (modeSelect s)
                 (aiLevelSelect s) (playerSymbolSelect s) (status s) n)
              rnd rnd') as [idx ->].
  eauto.
Qed.

Lemma step_wellFormed (s s' : Session) (e : Event) :
  wellFormed s → step s e = Some s' → wellFormed s'.
Proof.
  intros Hwf. destruct e; simpl.
  - intros [= <-]. by split.
  - intros [= <-]. unfold humanMove.
    destruct (negb (running s)); [done|].
    destruct (negb (isNull _)); [done|].
    destruct (String.eqb (mode s) "pvc").
    + destruct (negb (String.eqb _ _)); [done|]. by apply makeMove_wellFormed.
    + by apply makeMove_wellFormed.
  - by intros [= <-].
  - by intros [= <-].
  - by intros [= <-].
  - destruct (pendingAiMoves s) as [|k]; [by intros [= <-]|].
    set (s1 := mkSession _ _ _ _ _ _ _ _ _ _ _ _ _ _ k).
    destruct (aiMakeMove_shape s1 rnd rnd') as [idx ->].
    intros [= <-]. assert (wellFormed s1) as Hwf1 by done.
    change (running s1) with (running s).
    destruct (running s) eqn:Hr; [by apply makeMove_wellFormed|done].
Qed.

Lemma run_wellFormed (es : list Event) (s : Session) :
  wellFormed s → ∃ s', run s es = Some s' ∧ wellFormed s'.
Proof.
  revert s. induction es as [|e es IH]; intros s Hwf; simpl; [eauto|].
  destruct (step_total s e) as [s1 H1]. rewrite H1.
  apply IH. by eapply step_wellFormed.
Qed.

Lemma in_progress_has_empty (b : Board) :
  length b = 9%nat → evaluate b = InProgress →
  checkWin b = None ∧ ∃ i, (i < 9)%nat ∧ b !! i = Some None.
Proof.
  intros Hlen Hev.
  destruct (nonterminal_has_empty b X O 0 0) as [Hw [i Hi]]; [done| |].
  - by apply (evaluate_InProgress_terminalScore b X).
  - split; [done|]. exists i. split; [|done].
    apply lookup_lt_Some in Hi. lia.
Qed.

(** X14.  Whatever the page's selects hold and whatever happens on the page,
    the session one arrives at has a nine-cell board, and while it is
    running that board has no complete line and at least one empty cell. *)
Theorem reachable_session_in_progress (modeSel levelSel symbolSel : string)
    (es : list Event) :
  ∃ s, run (initialSession modeSel levelSel symbolSel) es = Some s
       ∧ length (board s) = 9%nat
       ∧ (running s = true →
          evaluate (board s) = InProgress
          ∧ checkWin (board s) = None
          ∧ ∃ i, (i < 9)%nat ∧ board s !! i = Some None).
Proof.
  destruct (run_wellFormed es (initialSession modeSel levelSel symbolSel))
    as (s & Hrun & Hlen & Hprog).
  { split; [done|]. simpl. done. }
  exists s. split; [done|]. split; [done|].
  intros Hr. split; [by apply Hprog|]. apply in_progress_has_empty; auto.
Qed.

(** In a session reached from the initial one, the heuristic strategy is
    therefore always in the situation where it takes a win or blocks. *)
Corollary aiDifficultMove_in_session (modeSel levelSel symbolSel : string)
    (es : list Event) (s : Session) (aiSymbol : Mark) (rnd : nat) :
  run (initialSession modeSel levelSel symbolSel) es = Some s →
  running s = true →
  ((∃ i, completesLine (board s) aiSymbol i) →
   ∃ j, aiDifficultMove (board s) aiSymbol rnd
          = Some (INum (Z.of_nat j), board s)
        ∧ completesLine (board s) aiSymbol j)
  ∧ ((∀ i, ¬ completesLine (board s) aiSymbol i) →
     (∃ i, completesLine (board s) (otherMark aiSymbol) i) →
     ∃ j, aiDifficultMove (board s) aiSymbol rnd
            = Some (INum (Z.of_nat j), board s)
          ∧ completesLine (board s) (otherMark aiSymbol) j).
Proof.
  intros Hrun Hr.
  destruct (run_wellFormed es (initialSession modeSel levelSel symbolSel))
    as (s' & Hrun' & Hlen & Hprog); [by split|].
  rewrite Hrun in Hrun'. injection Hrun' as <-.
  destruct (in_progress_has_empty (board s) Hlen (Hprog Hr)) as [Hno _].
  split.
  - by apply aiDifficultMove_takes_win.
  - by apply aiDifficultMove_blocks.
Qed.

(** * Further properties of the code *)

(** ** The legal moves *)

(** The list built by [flatMap], for any numbering [g] of the positions. *)
Lemma flatMap_null_elem (g : nat → nat) (b : Board) (x : nat) :
  x ∈ concat (imap (fun i v => if isNull (Some v) then [g i] else []) b)
  ↔ ∃ i, x = g i ∧ b !! i = Some None.
Proof.
  rewrite list_elem_of_In, in_concat. split.
  - intros (l & Hl & Hx). apply list_elem_of_In, elem_of_lookup_imap in Hl.
    destruct Hl as (j & c & -> & Hj). destruct c as [m|]; simpl in Hx; [done|].
    destruct Hx as [<-|[]]. eauto.
  - intros (i & -> & Hi). exists [g i]. split; [|by left].
    apply list_elem_of_In, elem_of_lookup_imap. by exists i, None.
Qed.

Lemma flatMap_null_length (g : nat → nat) (b : Board) :
  length (concat (imap (fun i v => if isNull (Some v) then [g i] else []) b))
  = nulls b.
Proof.
  revert g. induction b as [|c b IH]; intros g; [done|].
  rewrite imap_cons. cbn [concat]. rewrite length_app.
  destruct c; cbn [isNull length nulls Nat.add].
  - apply (IH (g ∘ S)).
  - f_equal. apply (IH (g ∘ S)).
Qed.

Lemma flatMap_null_NoDup (g : nat → nat) (b : Board) :
  (∀ i j, g i = g j → i = j) →
  NoDup (concat (imap (fun i v => if isNull (Some v) then [g i] else []) b)).
Proof.
  revert g. induction b as [|c b IH]; intros g Hinj; [by apply NoDup_nil|].
  rewrite imap_cons. cbn [concat]. apply NoDup_app. split; [|split].
  - destruct c; simpl; [by apply NoDup_nil|apply NoDup_singleton].
  - intros x Hx Hin.
    apply (flatMap_null_elem (g ∘ S)) in Hin as (i & -> & _).
    destruct c; simpl in Hx; [by apply not_elem_of_nil in Hx|].
    apply list_elem_of_singleton in Hx. by apply Hinj in Hx.
  - apply (IH (g ∘ S)). intros i j H. apply Hinj in H. congruence.
Qed.

Lemma countMark_nulls (b : Board) :
  (nulls b + countMark X b + countMark O b = length b)%nat.
Proof. induction b as [|[[|]|] b IH]; simpl; lia. Qed.

(** X2.  The list of legal moves that [aiRandomMove] builds holds exactly
    the indices of the empty cells, each once; its length is the number of
    cells minus the number of marks on the board. *)
Theorem emptyIndices_are_the_legal_moves (b : Board) :
  (∀ i, i ∈ emptyIndices b ↔ b !! i = Some None)
  ∧ NoDup (emptyIndices b)
  ∧ (length (emptyIndices b) + countMark X b + countMark O b = length b)%nat.
Proof.
  split; [apply emptyIndices_spec|]. split.
  - apply (flatMap_null_NoDup (fun i => i)). auto.
  - unfold emptyIndices. rewrite (flatMap_null_length (fun i => i)).
    apply countMark_nulls.
Qed.

(** ** The random strategy *)

Lemma emptyIndices_nil (b : Board) :
  emptyIndices b = [] ↔ ∀ i, b !! i ≠ Some None.
Proof.
  split.
  - intros E i Hi. apply emptyIndices_spec in Hi. rewrite E in Hi.
    by apply not_elem_of_nil in Hi.
  - intros H. destruct (emptyIndices b) as [|e es] eqn:E; [done|].
    exfalso. apply (H e), emptyIndices_spec. rewrite E. left.
Qed.

Lemma aiRandomMove_cases (b : Board) (rnd : nat) :
  (emptyIndices b = [] ∧ aiRandomMove b rnd = INull)
  ∨ (∃ j, emptyIndices b !! randomBelow rnd (length (emptyIndices b)) = Some j
          ∧ aiRandomMove b rnd = INum (Z.of_nat j)
          ∧ b !! j = Some None).
Proof.
  unfold aiRandomMove.
  destruct (emptyIndices b) as [|e es] eqn:E; [by left|right].
  cbn [length Nat.eqb].
  assert (randomBelow rnd (S (length es)) < length (e :: es))%nat as Hlt.
  { unfold randomBelow. cbn [length]. apply Nat.mod_upper_bound. lia. }
  apply lookup_lt_is_Some_2 in Hlt as [j Hj]. rewrite Hj.
  exists j. split; [done|]. split; [done|].
  apply emptyIndices_spec. rewrite E. by eapply list_elem_of_lookup_2.
Qed.

(** X1.  [aiRandomMove] answers [null] exactly when the board has no empty
    cell; any number it answers is the index of an empty cell; it never
    answers [undefined]; and every empty cell is the answer for some outcome
    of the random draw. *)
Theorem aiRandomMove_picks_legal_moves (b : Board) :
  (∀ rnd, aiRandomMove b rnd = INull ↔ ∀ i, b !! i ≠ Some None)
  ∧ (∀ rnd n, aiRandomMove b rnd = INum n →
       0 ≤ n ∧ b !! Z.to_nat n = Some None)
  ∧ (∀ rnd, aiRandomMove b rnd ≠ IUndefined)
  ∧ (∀ i, b !! i = Some None → ∃ rnd, aiRandomMove b rnd = INum (Z.of_nat i)).
Proof.
  split; [|split; [|split]].
  - intros rnd. rewrite <- emptyIndices_nil.
    destruct (aiRandomMove_cases b rnd) as [[E ->]|(j & Hj & -> & _)]; [done|].
    split; [done|]. intros E. rewrite E in Hj. done.
  - intros rnd n.
    destruct (aiRandomMove_cases b rnd) as [[_ ->]|(j & _ & -> & Hn)]; [done|].
    intros [= <-]. rewrite Nat2Z.id. split; [lia|done].
  - intros rnd.
    by destruct (aiRandomMove_cases b rnd) as [[_ ->]|(j & _ & -> & _)].
  - intros i Hi%emptyIndices_spec.
    apply list_elem_of_lookup_1 in Hi as [k Hk].
    exists k.
    destruct (aiRandomMove_cases b k) as [[E _]|(j & Hj & -> & _)].
    + rewrite E in Hk. done.
    + unfold randomBelow in Hj.
      rewrite Nat.mod_small in Hj by by eapply lookup_lt_Some.
      congruence.
Qed.

(** ** The heuristic strategy beyond its first two steps *)




Lemma emptyAmong_nil (b : Board) (candidates : list nat) :
  emptyAmong b candidates = [] → ∀ i, i ∈ candidates → b !! i ≠ Some None.
Proof.
  intros E i Hi Hn.
  assert (i ∈ emptyAmong b candidates) as H by by apply emptyAmong_spec.
  rewrite E in H. by apply not_elem_of_nil in H.
Qed.

(** What [aiDifficultMove] does once its first two loops have found
    nothing: centre, then an empty corner, then an empty side, then
    [aiRandomMove]. *)
Lemma aiDifficultMove_positional (b : Board) (ai : Mark) (rnd : nat) :
  (findCompleting ai cells b).1 = None →
  (findCompleting (otherMark ai) cells b).1 = None →
  (b !! 4%nat = Some None ∧ aiDifficultMove b ai rnd = Some (INum 4, b))
  ∨ (b !! 4%nat ≠ Some None
     ∧ ∃ j, j ∈ emptyAmong b [0; 2; 6; 8]%nat
            ∧ aiDifficultMove b ai rnd = Some (INum (Z.of_nat j), b))
  ∨ (b !! 4%nat ≠ Some None
     ∧ emptyAmong b [0; 2; 6; 8]%nat = []
     ∧ ∃ j, j ∈ emptyAmong b [1; 3; 5; 7]%nat
            ∧ aiDifficultMove b ai rnd = Some (INum (Z.of_nat j), b))
  ∨ (b !! 4%nat ≠ Some None
     ∧ emptyAmong b [0; 2; 6; 8]%nat = []
     ∧ emptyAmong b [1; 3; 5; 7]%nat = []
     ∧ aiDifficultMove b ai rnd = Some (aiRandomMove b rnd, b)).
Proof.
  intros H1 H2. unfold aiDifficultMove.
  pose proof (findCompleting_restores ai cells b) as Hb1.
  destruct (findCompleting ai cells b) as [[?|] b1]; [done|].
  simpl in Hb1. subst b1.
  pose proof (findCompleting_restores (otherMark ai) cells b) as Hb2.
  destruct (findCompleting (otherMark ai) cells b) as [[?|] b2]; [done|].
  simpl in Hb2. subst b2.
  destruct (isNull (b !! 4%nat)) eqn:H4.
  { left. split; [by apply isNull_true|done]. }
  right.
  assert (b !! 4%nat ≠ Some None) as Hc by (intros E; by rewrite E in H4).
  destruct (emptyAmong b [0; 2; 6; 8]%nat) as [|c0 cs] eqn:Ecs.
  - right. destruct (emptyAmong b [1; 3; 5; 7]%nat) as [|s0 ss] eqn:Ess.
    + right. done.
    + left. split; [done|]. split; [done|].
      assert (randomBelow rnd (length (s0 :: ss)) < length (s0 :: ss))%nat as Hlt.
      { unfold randomBelow. cbn [length]. apply Nat.mod_upper_bound. lia. }
      apply lookup_lt_is_Some_2 in Hlt as [j Hj]. rewrite Hj.
      exists j. split; [by eapply list_elem_of_lookup_2|done].
  - left. split; [done|].
    destruct (cornerLoop_restores ai (otherMark ai) (c0 :: cs) c0 NegInf b)
      as (best & -> & Hbest).
    { intros c Hin. rewrite <- Ecs in Hin.
      by apply emptyAmong_spec in Hin as [_ ?]. }
    exists best. split; [|done].
    destruct Hbest as [->|Hin]; [left|done].
Qed.

(** X3.  On a nine-cell board with an empty cell, whatever else is on it,
    [aiDifficultMove] returns the index of an empty cell (and the board as
    it was): none of its six steps can answer an occupied cell, a number out
    of range, [null] or [undefined]. *)
Theorem aiDifficultMove_returns_legal_move (b : Board) (aiSymbol : Mark)
    (rnd : nat) :
  length b = 9%nat →
  (∃ i, b !! i = Some None) →
  ∃ j, aiDifficultMove b aiSymbol rnd = Some (INum (Z.of_nat j), b)
       ∧ (j < 9)%nat ∧ b !! j = Some None.
Proof.
  intros Hlen [e He].
  assert (∀ j, b !! j = Some None → (j < 9)%nat) as Hlt
    by (intros j Hj%lookup_lt_Some; lia).
  destruct (findCompleting aiSymbol cells b) as [[j|] b1] eqn:E1.
  { destruct (findCompleting_Some aiSymbol cells b j) as (_ & Hn & _);
      [by rewrite E1|].
    exists j. unfold aiDifficultMove. rewrite E1.
    pose proof (findCompleting_restores aiSymbol cells b) as Hb.
    rewrite E1 in Hb. simpl in Hb. subst b1. auto. }
  destruct (findCompleting (otherMark aiSymbol) cells b) as [[j|] b2] eqn:E2.
  { destruct (findCompleting_Some (otherMark aiSymbol) cells b j)
      as (_ & Hn & _); [by rewrite E2|].
    exists j. unfold aiDifficultMove. rewrite E1.
    pose proof (findCompleting_restores aiSymbol cells b) as Hb.
    rewrite E1 in Hb. simpl in Hb. subst b1. rewrite E2.
    pose proof (findCompleting_restores (otherMark aiSymbol) cells b) as Hb.
    rewrite E2 in Hb. simpl in Hb. subst b2. auto. }
  destruct (aiDifficultMove_positional b aiSymbol rnd)
    as [[H4 ->]|[(_ & j & Hj & ->)|[(_ & _ & j & Hj & ->)|(H4 & Hc & Hs & _)]]];
    try (by rewrite ?E1, ?E2).
  - exists 4%nat. auto.
  - apply emptyAmong_spec in Hj as [_ Hn]. exists j. auto.
  - apply emptyAmong_spec in Hj as [_ Hn]. exists j. auto.
  - exfalso.
    pose proof (emptyAmong_nil b _ Hc) as Hc'.
    pose proof (emptyAmong_nil b _ Hs) as Hs'.
    pose proof (Hlt e He) as Hbound.
    destruct e as [|[|[|[|[|[|[|[|[|e]]]]]]]]]; [..|lia];
      match type of He with
      | _ !! ?k = _ =>
          first [ by apply H4
                | by apply (Hc' k ltac:(repeat constructor))
                | by apply (Hs' k ltac:(repeat constructor)) ]
      end.
Qed.

Lemma aiDifficultMove_returns_legal_move_witness :
  let b := [Some O; Some X; None; None; Some X; Some O; None; Some O; Some X] in
  ∃ j, aiDifficultMove b X 0 = Some (INum (Z.of_nat j), b)
       ∧ (j < 9)%nat ∧ b !! j = Some None.
Proof.
  apply (aiDifficultMove_returns_legal_move
           [Some O; Some X; None; None; Some X; Some O; None; Some O; Some X]
           X 0).
  - reflexivity.
  - exists 2%nat. reflexivity.
Defined.

Lemma no_completing_cell (b : Board) (mark : Mark) :
  checkWin b = None → (∀ i, ¬ completesLine b mark i) →
  (findCompleting mark cells b).1 = None.
Proof.
  intros Hno Hnone.
  destruct (findCompleting mark cells b).1 as [j|] eqn:E; [|done].
  exfalso. apply (Hnone j).
  destruct (findCompleting_Some mark cells b j E) as (_ & Hn & Hw).
  by apply completesLine_checkWin.
Qed.

(** X4.  When neither side can complete a line with one more mark, the
    strategy plays by position: the centre if it is empty; otherwise an
    empty corner if there is one; otherwise an empty side. *)
Theorem aiDifficultMove_centre_corner_side (b : Board) (aiSymbol : Mark)
    (rnd : nat) :
  checkWin b = None →
  (∀ i, ¬ completesLine b aiSymbol i) →
  (∀ i, ¬ completesLine b (otherMark aiSymbol) i) →
  (b !! 4%nat = Some None →
   aiDifficultMove b aiSymbol rnd = Some (INum 4, b))
  ∧ (b !! 4%nat ≠ Some None →
     (∃ c, c ∈ [0; 2; 6; 8]%nat ∧ b !! c = Some None) →
     ∃ j, aiDifficultMove b aiSymbol rnd = Some (INum (Z.of_nat j), b)
          ∧ j ∈ [0; 2; 6; 8]%nat ∧ b !! j = Some None)
  ∧ (b !! 4%nat ≠ Some None →
     (∀ c, c ∈ [0; 2; 6; 8]%nat → b !! c ≠ Some None) →
     (∃ c, c ∈ [1; 3; 5; 7]%nat ∧ b !! c = Some None) →
     ∃ j, aiDifficultMove b aiSymbol rnd = Some (INum (Z.of_nat j), b)
          ∧ j ∈ [1; 3; 5; 7]%nat ∧ b !! j = Some None).
Proof.
  intros Hno Hown Hopp.
  pose proof (no_completing_cell b aiSymbol Hno Hown) as E1.
  pose proof (no_completing_cell b (otherMark aiSymbol) Hno Hopp) as E2.
  destruct (aiDifficultMove_positional b aiSymbol rnd E1 E2)
    as [[H4 Hr]|[(H4 & j & Hj & Hr)|[(H4 & Hc & j & Hj & Hr)|(H4 & Hc & Hs & Hr)]]].
  - split; [done|]. split; intros H4'; done.
  - apply emptyAmong_spec in Hj as [Hin Hn].
    split; [done|]. split; [intros _ _; eauto|].
    intros _ Hnc _. by destruct (Hnc j Hin).
  - apply emptyAmong_spec in Hj as [Hin Hn].
    pose proof (emptyAmong_nil b _ Hc) as Hc'.
    split; [done|]. split; [|intros _ _ _; eauto].
    intros _ (c & Hcin & Hcn). by destruct (Hc' c Hcin).
  - pose proof (emptyAmong_nil b _ Hc) as Hc'.
    pose proof (emptyAmong_nil b _ Hs) as Hs'.
    split; [done|]. split.
    + intros _ (c & Hcin & Hcn). by destruct (Hc' c Hcin).
    + intros _ _ (c & Hcin & Hcn). by destruct (Hs' c Hcin).
Qed.

Lemma aiDifficultMove_centre_corner_side_witness :
  let b := [Some X; None; None; None; None; None; None; None; None] in
  aiDifficultMove b O 0 = Some (INum 4, b).
Proof.
  assert (∀ m i,
            ¬ completesLine
                [Some X; None; None; None; None; None; None; None; None] m i)
    as Hnone.
  { intros m i Hc.
    destruct (proj1 (completesLine_checkWin
                       [Some X; None; None; None; None; None; None; None; None]
                       m i eq_refl (proj1 Hc)) Hc)
      as [w Hw].
    destruct Hc as [Hn _].
    destruct i as [|[|[|[|[|[|[|[|[|i]]]]]]]]]; try discriminate Hn;
      destruct m; vm_compute in Hw; discriminate Hw. }
  exact (proj1 (aiDifficultMove_centre_corner_side
                  [Some X; None; None; None; None; None; None; None; None]
                  O 0 eq_refl (Hnone O) (Hnone (otherMark O)))
               eq_refl).
Defined.

(** ** The range of the scores *)

Lemma cellValue_bound (b : Board) ai hu i w :
  0 ≤ w → - w ≤ cellValue b ai hu i w ≤ w.
Proof.
  intros Hw. unfold cellValue.
  destruct (holds b i ai); [lia|]. destruct (holds b i hu); lia.
Qed.

Lemma staticScore_bound (b : Board) ai hu : -18 ≤ staticScore b ai hu ≤ 18.
Proof.
  unfold staticScore. cbn [fold_left].
  pose proof (cellValue_bound b ai hu 4 6).
  pose proof (cellValue_bound b ai hu 0 3).
  pose proof (cellValue_bound b ai hu 2 3).
  pose proof (cellValue_bound b ai hu 6 3).
  pose proof (cellValue_bound b ai hu 8 3).
  lia.
Qed.

Lemma terminalScore_Some (b : Board) ai hu x y s :
  terminalScore b ai hu x y = Some s → s = x ∨ s = y ∨ s = 0.
Proof.
  unfold terminalScore.
  destruct (checkWin b) as [win|].
  - destruct (Mark_eqb (winner win) ai); [intros [= <-]; auto|].
    destruct (Mark_eqb (winner win) hu); [intros [= <-]; auto|].
    destruct (isDraw b); [intros [= <-]; auto|done].
  - destruct (isDraw b); [intros [= <-]; auto|done].
Qed.

Lemma Score_max_NegInf_l b : Score_max NegInf b = b.
Proof. by destruct b. Qed.

Lemma Score_min_PosInf_l b : Score_min PosInf b = b.
Proof. by destruct b. Qed.

(** A loop of [limitedMinimaxScore] returns one of the values it was given
    by its recursive calls, combined by [pick], or its initial value when no
    cell is empty. *)
Lemma scoreLoop_range rec mark pick init (P : Score → Prop) todo (b : Board) :
  (∀ i, i ∈ todo → b !! i = Some None →
     ∃ v, rec (write b i (Some mark)) = Some (v, write b i (Some mark)) ∧ P v) →
  (∀ a v, a = init ∨ P a → P v → P (pick a v)) →
  ∀ best, best = init ∨ P best →
    ∃ v, scoreLoop rec mark pick todo best b = Some (v, b)
       ∧ (P v ∨ (v = best ∧ ∀ i, i ∈ todo → b !! i ≠ Some None)).
Proof.
  intros Hrec Hpick.
  induction todo as [|i rest IH]; intros best Hbest; simpl.
  - exists best. split; [done|]. right. split; [done|].
    intros i Hi. by apply not_elem_of_nil in Hi.
  - assert (Hrec' : ∀ j, j ∈ rest → b !! j = Some None →
              ∃ v, rec (write b j (Some mark)) = Some (v, write b j (Some mark))
                   ∧ P v)
      by (intros j Hj; apply Hrec; by right).
    destruct (isNull (b !! i)) eqn:Hn.
    + apply isNull_true in Hn.
      destruct (Hrec i) as (v & Hv & HP); [left|done|].
      rewrite Hv, write_undo by done.
      destruct (IH Hrec' (pick best v)) as (r & Hr & [Hg|[-> _]]).
      * right. by apply Hpick.
      * eauto.
      * eexists. split; [done|]. left. by apply Hpick.
    + destruct (IH Hrec' best Hbest) as (r & Hr & [Hg|[-> Hnone]]); [eauto|].
      exists best. split; [done|]. right. split; [done|].
      intros j [->|Hj]%elem_of_cons; [|by apply Hnone].
      intros E. rewrite E in Hn. done.
Qed.

Lemma limitedMinimaxScore_fuel_range ai hu fuel :
  ai ≠ hu →
  ∀ (b : Board) depth isAi,
    length b = 9%nat → (emptyCount b < fuel)%nat →
    ∃ z, limitedMinimaxScore_fuel fuel b ai hu depth isAi = Some (Fin z, b)
         ∧ -100 ≤ z ≤ 100.
Proof.
  intros Hne.
  induction fuel as [|fuel IH]; intros b depth isAi Hlen Hfuel; [lia|].
  rewrite limitedMinimaxScore_fuel_S.
  destruct (terminalScore b ai hu 100 (-100)) as [s|] eqn:Ht.
  { exists s. split; [done|].
    apply terminalScore_Some in Ht as [->|[->| ->]]; lia. }
  destruct (depth =? 0).
  { eexists. split; [done|]. pose proof (staticScore_bound b ai hu). lia. }
  destruct (nonterminal_has_empty b ai hu _ _ Hne Ht) as [_ [e He]].
  assert (e ∈ cells) as Hein.
  { apply in_cells. apply lookup_lt_Some in He. lia. }
  set (P := fun v : Score => ∃ z, v = Fin z ∧ -100 ≤ z ≤ 100).
  assert (Hchild : ∀ mark isAi' i, i ∈ cells → b !! i = Some None →
            ∃ v, limitedMinimaxScore_fuel fuel (write b i (Some mark)) ai hu
                   (depth - 1) isAi' = Some (v, write b i (Some mark)) ∧ P v).
  { intros mark isAi' i Hi%in_cells Hn.
    destruct (IH (write b i (Some mark)) (depth - 1) isAi') as (z & Hz & Hr).
    - by rewrite length_write.
    - pose proof (emptyCount_write b i mark Hi Hn). lia.
    - exists (Fin z). split; [done|]. by exists z. }
  destruct isAi.
  - destruct (scoreLoop_range
                (fun b' => limitedMinimaxScore_fuel fuel b' ai hu (depth - 1) false)
                ai Score_max NegInf P cells b) with (best := NegInf)
      as (v & Hv & [(z & -> & Hz)|[_ Hnone]]).
    + intros i. apply Hchild.
    + intros a v [->|(za & -> & Hza)] (zv & -> & Hzv).
      * rewrite Score_max_NegInf_l. by exists zv.
      * unfold Score_max. destruct (Score_ltb _ _); eexists; eauto.
    + by left.
    + eauto.
    + by destruct (Hnone e Hein).
  - destruct (scoreLoop_range
                (fun b' => limitedMinimaxScore_fuel fuel b' ai hu (depth - 1) true)
                hu Score_min PosInf P cells b) with (best := PosInf)
      as (v & Hv & [(z & -> & Hz)|[_ Hnone]]).
    + intros i. apply Hchild.
    + intros a v [->|(za & -> & Hza)] (zv & -> & Hzv).
      * rewrite Score_min_PosInf_l. by exists zv.
      * unfold Score_min. destruct (Score_ltb _ _); eexists; eauto.
    + by left.
    + eauto.
    + by destruct (Hnone e Hein).
Qed.

(** X6.  On a nine-cell board and for two different marks, the bounded
    search returns an integer between -100 and 100, never an infinity,
    whatever the depth limit and the side to move; and the static
    evaluation it uses at the depth limit lies between -18 and 18. *)
Theorem limitedMinimaxScore_is_bounded (b : Board) (aiSymbol humanSymbol : Mark)
    (depth : Z) (isAiTurn : bool) :
  aiSymbol ≠ humanSymbol →
  length b = 9%nat →
  (∃ z, limitedMinimaxScore b aiSymbol humanSymbol depth isAiTurn
          = Some (Fin z, b)
        ∧ -100 ≤ z ≤ 100)
  ∧ -18 ≤ staticScore b aiSymbol humanSymbol ≤ 18.
Proof.
  intros Hne Hlen. split; [|apply staticScore_bound].
  apply limitedMinimaxScore_fuel_range; [done|done|].
  pose proof (emptyCount_le b). unfold searchFuel. lia.
Qed.

Lemma limitedMinimaxScore_is_bounded_witness :
  let b := [Some X; None; None; None; Some O; None; None; None; None] in
  (∃ z, limitedMinimaxScore b X O 3 true = Some (Fin z, b) ∧ -100 ≤ z ≤ 100)
  ∧ -18 ≤ staticScore b X O ≤ 18.
Proof.
  apply (limitedMinimaxScore_is_bounded
           [Some X; None; None; None; Some O; None; None; None; None]
           X O 3 true).
  - discriminate.
  - reflexivity.
Defined.

(** The two loops of [minimax] return the result of one of their recursive
    calls, or the initial [best] when every cell is taken. *)
Lemma maxLoop_scores rec mark beta (P : Score → Prop) todo (b : Board) :
  (∀ v, P v → ∃ z, v = Fin z) →
  (∀ i a, i ∈ todo → b !! i = Some None →
     ∃ r, rec (write b i (Some mark)) a = Some (r, write b i (Some mark))
          ∧ P (score r)) →
  ∀ best alpha,
    score best = NegInf ∨ P (score best) →
    ∃ r, maxLoop rec mark beta todo best alpha b = Some (r, b)
       ∧ (P (score r) ∨ (r = best ∧ ∀ i, i ∈ todo → b !! i ≠ Some None)).
Proof.
  intros Hfin.
  induction todo as [|i rest IH]; intros Hrec best alpha Hbest; simpl.
  - exists best. split; [done|]. right. split; [done|].
    intros i Hi. by apply not_elem_of_nil in Hi.
  - assert (Hrec' : ∀ j a, j ∈ rest → b !! j = Some None →
              ∃ r, rec (write b j (Some mark)) a = Some (r, write b j (Some mark))
                   ∧ P (score r))
      by (intros j a Hj; apply Hrec; by right).
    destruct (isNull (b !! i)) eqn:Hn.
    + apply isNull_true in Hn.
      destruct (Hrec i alpha) as (r0 & Hr & HP); [left|done|].
      rewrite Hr, write_undo by done.
      assert (P (score (if Score_ltb (score best) (score r0)
                        then setIndex r0 i else best))) as Hbest'.
      { destruct Hbest as [->|Hg].
        - destruct (Hfin _ HP) as [z Hz]. by rewrite Hz.
        - by destruct (Score_ltb _ _). }
      destruct (Score_leb beta _); [eauto|].
      destruct (IH Hrec' _ (Score_max alpha (score r0)) (or_intror Hbest'))
        as (r & Hl & [Hg|[-> _]]); eauto.
    + destruct (IH Hrec' best alpha Hbest) as (r & Hl & [Hg|[-> Hnone]]);
        [eauto|].
      exists best. split; [done|]. right. split; [done|].
      intros j [->|Hj]%elem_of_cons; [|by apply Hnone].
      intros E. rewrite E in Hn. done.
Qed.

Lemma minLoop_scores rec mark alpha (P : Score → Prop) todo (b : Board) :
  (∀ v, P v → ∃ z, v = Fin z) →
  (∀ i bt, i ∈ todo → b !! i = Some None →
     ∃ r, rec (write b i (Some mark)) bt = Some (r, write b i (Some mark))
          ∧ P (score r)) →
  ∀ best beta,
    score best = PosInf ∨ P (score best) →
    ∃ r, minLoop rec mark alpha todo best beta b = Some (r, b)
       ∧ (P (score r) ∨ (r = best ∧ ∀ i, i ∈ todo → b !! i ≠ Some None)).
Proof.
  intros Hfin.
  induction todo as [|i rest IH]; intros Hrec best beta Hbest; simpl.
  - exists best. split; [done|]. right. split; [done|].
    intros i Hi. by apply not_elem_of_nil in Hi.
  - assert (Hrec' : ∀ j bt, j ∈ rest → b !! j = Some None →
              ∃ r, rec (write b j (Some mark)) bt = Some (r, write b j (Some mark))
                   ∧ P (score r))
      by (intros j bt Hj; apply Hrec; by right).
    destruct (isNull (b !! i)) eqn:Hn.
    + apply isNull_true in Hn.
      destruct (Hrec i beta) as (r0 & Hr & HP); [left|done|].
      rewrite Hr, write_undo by done.
      assert (P (score (if Score_ltb (score r0) (score best)
                        then setIndex r0 i else best))) as Hbest'.
      { destruct Hbest as [->|Hg].
        - destruct (Hfin _ HP) as [z Hz]. by rewrite Hz.
        - by destruct (Score_ltb _ _). }
      destruct (Score_leb _ alpha); [eauto|].
      destruct (IH Hrec' _ (Score_min beta (score r0)) (or_intror Hbest'))
        as (r & Hl & [Hg|[-> _]]); eauto.
    + destruct (IH Hrec' best beta Hbest) as (r & Hl & [Hg|[-> Hnone]]);
        [eauto|].
      exists best. split; [done|]. right. split; [done|].
      intros j [->|Hj]%elem_of_cons; [|by apply Hnone].
      intros E. rewrite E in Hn. done.
Qed.

Lemma minimax_fuel_scores ai hu fuel :
  ai ≠ hu →
  ∀ (b : Board) isAi alpha beta depth,
    length b = 9%nat → (emptyCount b < fuel)%nat →
    ∃ r, minimax_fuel fuel b ai hu isAi alpha beta depth = Some (r, b)
         ∧ outcomeScore depth (Z.of_nat (emptyCount b)) (score r).
Proof.
  intros Hne.
  induction fuel as [|fuel IH]; intros b isAi alpha beta depth Hlen Hfuel; [lia|].
  rewrite minimax_fuel_S.
  destruct (terminalScore b ai hu _ _) as [s|] eqn:Ht.
  { eexists. split; [done|]. exists s. split; [done|].
    apply terminalScore_Some in Ht as [->|[->| ->]]; lia. }
  destruct (nonterminal_has_empty b ai hu _ _ Hne Ht) as [_ [e He]].
  assert (e ∈ cells) as Hein.
  { apply in_cells. apply lookup_lt_Some in He. lia. }
  set (P := outcomeScore depth (Z.of_nat (emptyCount b))).
  assert (HP : ∀ v, P v → ∃ z, v = Fin z) by (intros v (z & -> & _); eauto).
  assert (Hchild : ∀ mark isAi' i a bt, i ∈ cells → b !! i = Some None →
            ∃ r, minimax_fuel fuel (write b i (Some mark)) ai hu isAi' a bt
                   (depth + 1) = Some (r, write b i (Some mark))
                 ∧ P (score r)).
  { intros mark isAi' i a bt Hi%in_cells Hn.
    pose proof (emptyCount_write b i mark Hi Hn) as Hcount.
    destruct (IH (write b i (Some mark)) isAi' a bt (depth + 1))
      as (r & Hr & z & Hz & Hrange).
    - by rewrite length_write.
    - lia.
    - exists r. split; [done|]. exists z. split; [done|]. lia. }
  destruct isAi.
  - destruct (maxLoop_scores
                (fun b' a => minimax_fuel fuel b' ai hu false a beta (depth + 1))
                ai beta P cells b HP) with (best := mkResult (INum (-1)) NegInf)
                                           (alpha := alpha)
      as (r & Hr & [Hg|[_ Hnone]]).
    + intros i a. apply Hchild.
    + by left.
    + eauto.
    + by destruct (Hnone e Hein).
  - destruct (minLoop_scores
                (fun b' bt => minimax_fuel fuel b' ai hu true alpha bt (depth + 1))
                hu alpha P cells b HP) with (best := mkResult (INum (-1)) PosInf)
                                            (beta := beta)
      as (r & Hr & [Hg|[_ Hnone]]).
    + intros i bt. apply Hchild.
    + by left.
    + eauto.
    + by destruct (Hnone e Hein).
Qed.

(** X7.  On a nine-cell board, whatever the window and the side to move, the
    score [minimax] returns from [depth] is 0, or a win of the engine
    [100 - depth - k], or a win of the opponent [-100 + depth + k], with [k]
    at most the number of empty cells.  Called from depth 0, as
    [aiMinimaxMove] does, the score is therefore 0, or between 91 and 100,
    or between -100 and -91. *)
Theorem minimax_score_range (b : Board) (aiSymbol : Mark) (isAiTurn : bool)
    (alpha beta : Score) :
  length b = 9%nat →
  (∀ depth,
     ∃ r, minimax b aiSymbol (otherMark aiSymbol) isAiTurn alpha beta depth
            = Some (r, b)
          ∧ outcomeScore depth (Z.of_nat (emptyCount b)) (score r))
  ∧ ∃ r z, minimax b aiSymbol (otherMark aiSymbol) isAiTurn alpha beta 0
             = Some (r, b)
           ∧ score r = Fin z
           ∧ (z = 0 ∨ 91 ≤ z ≤ 100 ∨ -100 ≤ z ≤ -91).
Proof.
  intros Hlen.
  assert (∀ depth,
     ∃ r, minimax b aiSymbol (otherMark aiSymbol) isAiTurn alpha beta depth
            = Some (r, b)
          ∧ outcomeScore depth (Z.of_nat (emptyCount b)) (score r)) as H.
  { intros depth. apply minimax_fuel_scores; [|done|].
    - intros E. by apply (otherMark_ne aiSymbol).
    - pose proof (emptyCount_le b). unfold searchFuel. lia. }
  split; [done|].
  destruct (H 0) as (r & Hr & z & Hz & Hrange).
  exists r, z. split; [done|]. split; [done|].
  pose proof (emptyCount_le b). lia.
Qed.

Lemma minimax_score_range_witness :
  let b := [Some X; None; None; None; Some O; None; None; None; None] in
  ∃ r z, minimax b X (otherMark X) true NegInf PosInf 0 = Some (r, b)
         ∧ score r = Fin z
         ∧ (z = 0 ∨ 91 ≤ z ≤ 100 ∨ -100 ≤ z ≤ -91).
Proof.
  apply (minimax_score_range
           [Some X; None; None; None; Some O; None; None; None; None]
           X true NegInf PosInf).
  reflexivity.
Defined.

(** ** An accepted move *)

Lemma evaluate_of_checkWin (b : Board) (win : WinInfo) :
  checkWin b = Some win → evaluate b = Win (winner win) (line win).
Proof. intros H. unfold evaluate. by rewrite H. Qed.




(** ** An accepted click *)

Lemma write_changes (b : Board) (i : nat) (m : Mark) :
  b !! i = Some None → write b i (Some m) ≠ b.
Proof.
  intros Hn E. assert (write b i (Some m) !! i = Some (Some m)) as H.
  { unfold write. apply list_lookup_insert_eq. by eapply lookup_lt_Some. }
  rewrite E, Hn in H. done.
Qed.

(** X9.  On a nine-cell board, a click that has none of the four reasons
    for refusal is accepted: the index is within 0..8, the cell was empty,
    and afterwards it holds the mark of the current player, whichever mode
    the game is in; the board has changed. *)
Theorem accepted_click_places_current_player (s : Session) (idx : Z) :
  length (board s) = 9%nat →
  ¬ mustReject idx s →
  0 ≤ idx ≤ 8
  ∧ board s !! Z.to_nat idx = Some None
  ∧ board (humanMove idx s)
    = write (board s) (Z.to_nat idx) (Some (currentPlayer s))
  ∧ board (humanMove idx s) ≠ board s.
Proof.
  intros Hlen Hok. unfold mustReject in Hok.
  assert (running s = true) as Hrun
    by (destruct (running s); [done|by destruct Hok; left]).
  assert (0 ≤ idx ≤ 8) as Hidx.
  { destruct (Z.ltb_spec idx 0); [by destruct Hok; auto|].
    destruct (Z.ltb_spec 8 idx); [by destruct Hok; auto|]. lia. }
  assert (cellAt (board s) idx = board s !! Z.to_nat idx) as Hcell.
  { unfold cellAt. by destruct (Z.ltb_spec idx 0); [lia|]. }
  assert (board s !! Z.to_nat idx = Some None) as Hn.
  { destruct (lookup_lt_is_Some_2 (board s) (Z.to_nat idx)) as [c Hc]; [lia|].
    destruct c as [m|]; [|done].
    destruct Hok. right. right. left. exists m. by rewrite Hcell. }
  split; [done|]. split; [done|].
  assert (board (humanMove idx s)
          = write (board s) (Z.to_nat idx) (Some (currentPlayer s))) as Hb.
  { pose proof (makeMove_writes s (Z.to_nat idx) (currentPlayer s) Hn) as Hw.
    rewrite Z2Nat.id in Hw by lia.
    unfold humanMove. rewrite Hrun, Hcell, Hn. cbn [negb isNull].
    destruct (String.eqb_spec (mode s) "pvc") as [Hm|Hm]; [|done].
    destruct (String.eqb_spec (markString (currentPlayer s)) (playerSymbol s))
      as [Hp|Hp]; [done|]. destruct Hok. auto 6. }
  split; [done|]. rewrite Hb. by apply write_changes.
Qed.

Lemma accepted_click_places_current_player_witness :
  let s := mkSession
             [Some X; None; None; None; Some O; None; None; None; None]
             X true "pvc" "easy" "X" (mkScores 0 0 0) [] None (INum 4)
             "pvc" "easy" "X" (Turn X) 0 in
  0 ≤ 8 ≤ 8
  ∧ board s !! Z.to_nat 8 = Some None
  ∧ board (humanMove 8 s) = write (board s) (Z.to_nat 8) (Some (currentPlayer s))
  ∧ board (humanMove 8 s) ≠ board s.
Proof.
  apply (accepted_click_places_current_player
           (mkSession
              [Some X; None; None; None; Some O; None; None; None; None]
              X true "pvc" "easy" "X" (mkScores 0 0 0) [] None (INum 4)
              "pvc" "easy" "X" (Turn X) 0) 8).
  - reflexivity.
  - intros [H|[[H|H]|[[m H]|[_ H]]]].
    + discriminate H.
    + lia.
    + lia.
    + discriminate H.
    + by apply H.
Defined.

(** ** Clicks, timers and the shape of their effect *)

Lemma humanMove_cases (s : Session) (idx : Z) :
  (∃ msg, humanMove idx s = announce msg s
          ∧ (msg = NotRunning ∨ msg = Occupied ∨ ∃ h, msg = NotYourTurn h))
  ∨ (running s = true
     ∧ isNull (cellAt (board s) idx) = true
     ∧ (mode s = "pvc"%string → markString (currentPlayer s) = playerSymbol s)
     ∧ humanMove idx s = (makeMove (INum idx) (currentPlayer s) s).2).
Proof.
  unfold humanMove.
  destruct (running s); cbn [negb]; [|left; eauto 6].
  destruct (isNull (cellAt (board s) idx)); cbn [negb]; [|left; eauto 6].
  destruct (String.eqb_spec (mode s) "pvc") as [Hm|Hm].
  - destruct (String.eqb_spec (markString (currentPlayer s)) (playerSymbol s))
      as [Hp|Hp]; cbn [negb]; [right; auto|left; eauto 8].
  - right. repeat split; try done.
Qed.

Lemma aiMakeMove_not_running (s : Session) (rnd rnd' : nat) :
  running s = false → aiMakeMove rnd rnd' s = Some s.
Proof. intros H. unfold aiMakeMove. by rewrite H. Qed.

(** ** A finished game stays as it is *)

(** X15.  Once the game is not running, clicks on cells and timers change
    neither the board nor the tallies, the history, the player to move or
    the recorded line: only pressing Start gets the game going again. *)
Theorem finished_game_is_frozen (s : Session) (es : list Event) :
  running s = false →
  Forall withinGame es →
  ∃ s', run s es = Some s'
        ∧ running s' = false
        ∧ board s' = board s
        ∧ scores s' = scores s
        ∧ history s' = history s
        ∧ currentPlayer s' = currentPlayer s
        ∧ winningLine s' = winningLine s.
Proof.
  intros Hrun Hes. revert s Hrun.
  induction Hes as [|e es He Hes IH]; intros s Hrun; simpl; [by eauto 10|].
  assert (∃ s1, step s e = Some s1
                ∧ running s1 = false ∧ board s1 = board s
                ∧ scores s1 = scores s ∧ history s1 = history s
                ∧ currentPlayer s1 = currentPlayer s
                ∧ winningLine s1 = winningLine s)
    as (s1 & -> & Hr1 & Hb & Hsc & Hh & Hcp & Hwl).
  { destruct e; try done; simpl.
    - unfold humanMove. rewrite Hrun. simpl. eauto 10.
    - destruct (pendingAiMoves s); [eauto 10|].
      rewrite aiMakeMove_not_running by done. eauto 10. }
  destruct (IH s1 Hr1) as (s' & -> & ? & ? & ? & ? & ? & ?).
  exists s'. repeat split; congruence.
Qed.

Lemma finished_game_is_frozen_witness :
  let s := mkSession
             [Some X; Some X; Some X; Some O; Some O; None; None; None; None]
             X false "pvc" "easy" "X" (mkScores 1 0 0) [WonEntry X]
             (Some (0, 1, 2)%nat) (INum 2) "pvc" "easy" "X" (Wins X) 1 in
  ∃ s', run s [CellClicked 5; TimerFired 0 0] = Some s'
        ∧ running s' = false
        ∧ board s' = board s
        ∧ scores s' = scores s
        ∧ history s' = history s
        ∧ currentPlayer s' = currentPlayer s
        ∧ winningLine s' = winningLine s.
Proof.
  apply (finished_game_is_frozen
           (mkSession
              [Some X; Some X; Some X; Some O; Some O; None; None; None; None]
              X false "pvc" "easy" "X" (mkScores 1 0 0) [WonEntry X]
              (Some (0, 1, 2)%nat) (INum 2) "pvc" "easy" "X" (Wins X) 1)
           [CellClicked 5; TimerFired 0 0]).
  - reflexivity.
  - repeat constructor.
Defined.

(** ** Tallies and history *)

Lemma gamesCounted_bumpScore (w : Mark) (sc : Scores) :
  gamesCounted (bumpScore w sc) = S (gamesCounted sc).
Proof. destruct w; unfold gamesCounted; simpl; lia. Qed.

Lemma gamesCounted_bumpDraw (sc : Scores) :
  gamesCounted (bumpDraw sc) = S (gamesCounted sc).
Proof. unfold gamesCounted; simpl; lia. Qed.

Lemma addHistory_length (e : HistoryEntry) (h : list HistoryEntry) (g : nat) :
  length h = Nat.min 12 g → length (addHistory e h) = Nat.min 12 (S g).
Proof. intros H. unfold addHistory. rewrite length_take. simpl length. lia. Qed.

Lemma makeMove_history (idx : Index) (mark : Mark) (s : Session) :
  length (history s) = Nat.min 12 (gamesCounted (scores s)) →
  length (history (makeMove idx mark s).2)
  = Nat.min 12 (gamesCounted (scores (makeMove idx mark s).2)).
Proof.
  intros H. unfold makeMove.
  destruct (negb (isNull (readAt (board s) idx))); [done|].
  destruct idx as [| |n]; [done|done|].
  destruct (checkWin _) as [win|]; cbn [snd history scores].
  - rewrite gamesCounted_bumpScore. by apply addHistory_length.
  - destruct (isDraw _); cbn [snd history scores]; [|done].
    rewrite gamesCounted_bumpDraw. by apply addHistory_length.
Qed.

Lemma step_history (s s' : Session) (e : Event) :
  length (history s) = Nat.min 12 (gamesCounted (scores s)) →
  step s e = Some s' →
  length (history s') = Nat.min 12 (gamesCounted (scores s')).
Proof.
  intros H. destruct e; simpl.
  - by intros [= <-].
  - intros [= <-].
    destruct (humanMove_cases s idx) as [(msg & -> & _)|(_ & _ & _ & ->)];
      [done|by apply makeMove_history].
  - by intros [= <-].
  - by intros [= <-].
  - by intros [= <-].
  - destruct (pendingAiMoves s) as [|k]; [by intros [= <-]|].
    set (s1 := mkSession _ _ _ _ _ _ _ _ _ _ _ _ _ _ k).
    destruct (aiMakeMove_shape s1 rnd rnd') as [idx ->]. intros [= <-].
    change (running s1) with (running s).
    destruct (running s); [by apply makeMove_history|done].
Qed.

(** X10.  In every session reached from the initial one, by any events, the
    history holds one entry per finished game up to twelve, and never more
    than twelve: its length is the smaller of 12 and the sum of the three
    tallies. *)
Theorem history_keeps_twelve_entries (modeSel levelSel symbolSel : string)
    (es : list Event) :
  ∃ s, run (initialSession modeSel levelSel symbolSel) es = Some s
       ∧ length (history s) = Nat.min 12 (gamesCounted (scores s))
       ∧ (length (history s) ≤ 12)%nat.
Proof.
  assert (∀ es s,
            length (history s) = Nat.min 12 (gamesCounted (scores s)) →
            ∃ s', run s es = Some s'
                  ∧ length (history s') = Nat.min 12 (gamesCounted (scores s')))
    as Hrun.
  { clear es. induction es as [|e es IH]; intros s Hs; simpl; [eauto|].
    destruct (step_total s e) as [s1 H1]. rewrite H1.
    apply IH. by eapply step_history. }
  destruct (Hrun es (initialSession modeSel levelSel symbolSel)) as (s & Hs & Hl);
    [done|].
  exists s. split; [done|]. split; [done|]. lia.
Qed.

(** ** Alternation in a human-vs-human game *)






(** ** The hard level is never beaten *)

Lemma otherMark_involutive (m : Mark) : otherMark (otherMark m) = m.
Proof. by destruct m. Qed.

Lemma aiSymbol_of_playerSymbol (h : Mark) :
  (if String.eqb (markString h) "X" then O else X) = otherMark h.
Proof. by destruct h. Qed.

Lemma unbeaten_S fuel (b : Board) ai aiToMove :
  unbeaten (S fuel) b ai aiToMove =
  match evaluate b with
  | Win w _ => Mark_eqb w ai
  | Draw => true
  | InProgress =>
      if aiToMove then
        forallb
          (fun r =>
             match aiMinimaxMove b ai r with
             | Some (INum n) =>
                 isNull (cellAt b n)
                 && unbeaten fuel (write b (Z.to_nat n) (Some ai)) ai false
             | _ => false
             end)
          (openingDraws b)
      else
        forallb
          (fun i =>
             negb (isNull (b !! i))
             || unbeaten fuel (write b i (Some (otherMark ai))) ai true)
          cells
  end.
Proof. reflexivity. Qed.

(** Only the draw modulo 4 matters to [aiMinimaxMove], and only on the
    empty board. *)
Lemma aiMinimaxMove_draw (b : Board) ai rnd :
  ∃ r, r ∈ openingDraws b ∧ aiMinimaxMove b ai rnd = aiMinimaxMove b ai r.
Proof.
  unfold openingDraws, aiMinimaxMove.
  destruct (forallb _ b).
  - exists (rnd mod 4)%nat. split.
    + assert (rnd mod 4 < 4)%nat as H by (apply Nat.mod_upper_bound; lia).
      destruct (rnd mod 4)%nat as [|[|[|[|k]]]]; [..|lia]; repeat constructor.
    + unfold randomBelow. by rewrite Nat.Div0.mod_mod.
  - exists 0%nat. split; [left|done].
Qed.

Lemma unbeaten_after_opponent fuel (b : Board) ai (n : Z) :
  length b = 9%nat → evaluate b = InProgress →
  unbeaten fuel b ai false = true →
  isNull (cellAt b n) = true →
  ∃ fuel', unbeaten fuel' (write b (Z.to_nat n) (Some (otherMark ai))) ai true
           = true.
Proof.
  intros Hlen Hev Hu Hnull. destruct fuel as [|fuel]; [done|].
  rewrite unbeaten_S, Hev in Hu. exists fuel.
  rewrite forallb_forall in Hu.
  assert (b !! Z.to_nat n = Some None) as Hn.
  { apply isNull_true in Hnull. unfold cellAt in Hnull. by destruct (n <? 0). }
  specialize (Hu (Z.to_nat n)). rewrite Hn in Hu. apply Hu.
  apply list_elem_of_In, in_cells. apply lookup_lt_Some in Hn. lia.
Qed.

Lemma unbeaten_after_engine fuel (b : Board) ai rnd :
  evaluate b = InProgress →
  unbeaten fuel b ai true = true →
  ∃ n fuel', aiMinimaxMove b ai rnd = Some (INum n)
             ∧ isNull (cellAt b n) = true
             ∧ unbeaten fuel' (write b (Z.to_nat n) (Some ai)) ai false = true.
Proof.
  intros Hev Hu. destruct fuel as [|fuel]; [done|].
  rewrite unbeaten_S, Hev in Hu. rewrite forallb_forall in Hu.
  destruct (aiMinimaxMove_draw b ai rnd) as (r & Hr & ->).
  specialize (Hu r (proj1 (list_elem_of_In _ _) Hr)).
  destruct (aiMinimaxMove b ai r) as [[| |n]|]; try done.
  apply andb_true_iff in Hu as [H1 H2]. eauto.
Qed.

Lemma needsFallback_null (b : Board) (n : Z) :
  length b = 9%nat → isNull (cellAt b n) = true →
  needsFallback b (INum n) = false.
Proof.
  intros Hlen Hnull. unfold needsFallback. rewrite Hnull.
  apply isNull_true in Hnull. unfold cellAt in Hnull.
  destruct (Z.ltb_spec n 0); [done|].
  apply lookup_lt_Some in Hnull.
  destruct (Z.ltb_spec 8 n); [lia|done].
Qed.

Lemma makeMove_guarded (h : Mark) (points : nat) (s : Session) (n : Z)
    (m : Mark) (fuel : nat) (engineNext : bool) :
  mode s = "pvc"%string → aiLevel s = "hard"%string →
  playerSymbol s = markString h → length (board s) = 9%nat →
  tally h (scores s) = points → running s = true →
  pendingAiMoves s = 0%nat →
  isNull (cellAt (board s) n) = true →
  unbeaten fuel (write (board s) (Z.to_nat n) (Some m)) (otherMark h) engineNext
    = true →
  (m = h ∧ engineNext = true) ∨ (m = otherMark h ∧ engineNext = false) →
  guarded h points (makeMove (INum n) m s).2.
Proof.
  intros Hmode Hlevel Hsym Hlen Hpts Hrun Hpend Hnull Hu Hwho.
  destruct fuel as [|fuel]; [done|]. pose proof Hu as Hu'.
  rewrite unbeaten_S in Hu.
  unfold makeMove. cbn [readAt]. rewrite Hnull. cbn [negb].
  unfold evaluate in Hu.
  destruct (checkWin (write (board s) (Z.to_nat n) (Some m))) as [win|] eqn:Hw.
  - apply Mark_eqb_eq in Hu.
    unfold guarded. cbn [snd mode aiLevel playerSymbol board scores status
                         running currentPlayer pendingAiMoves].
    rewrite length_write, Hu.
    repeat match goal with |- _ ∧ _ => split end;
      try done; try (by destruct h).
    left. split; [done|]. right. exists (line win).
    rewrite (evaluate_of_checkWin _ _ Hw). by rewrite Hu.
  - destruct (isDraw (write (board s) (Z.to_nat n) (Some m))) eqn:Hd.
    + unfold guarded. cbn [snd mode aiLevel playerSymbol board scores status
                           running currentPlayer pendingAiMoves].
      rewrite length_write.
      repeat match goal with |- _ ∧ _ => split end;
        try done; try (by destruct h).
      left. split; [done|]. left. unfold evaluate. by rewrite Hw, Hd.
    + assert (evaluate (write (board s) (Z.to_nat n) (Some m)) = InProgress)
        as Hev by (unfold evaluate; by rewrite Hw, Hd).
      unfold guarded. cbn [snd mode aiLevel playerSymbol board scores status
                           running currentPlayer pendingAiMoves].
      rewrite length_write, Hmode, Hsym, Hpend.
      repeat match goal with |- _ ∧ _ => split end;
        try done; try (by destruct h).
      right. destruct Hwho as [[-> ->]|[-> ->]].
      * right. repeat match goal with |- _ ∧ _ => split end;
          try done; try (by destruct h). eauto.
      * left. rewrite otherMark_involutive.
        repeat match goal with |- _ ∧ _ => split end;
          try done; try (by destruct h). eauto.
Qed.

Lemma announce_guarded (h : Mark) (points : nat) (s : Session) (msg : Status) :
  msg ≠ Wins h → guarded h points s → guarded h points (announce msg s).
Proof. intros Hmsg (? & ? & ? & ? & ? & _ & ?). by repeat split. Qed.

Lemma step_guarded (h : Mark) (points : nat) (s s' : Session) (e : Event) :
  guarded h points s → withinGame e → step s e = Some s' →
  guarded h points s'.
Proof.
  intros Hg He. destruct e; try done; simpl.
  - (* a click *)
    intros [= <-].
    destruct (humanMove_cases s idx)
      as [(msg & -> & Hmsg)|(Hrun & Hnull & Hturn & ->)].
    { apply announce_guarded; [|done].
      destruct Hmsg as [->|[->|[? ->]]]; done. }
    destruct Hg as (Hmode & Hlevel & Hsym & Hlen & Hpts & Hst & Hcases).
    destruct Hcases as [[Hr _]|[(_ & Hcp & Hpend & Hev & fuel & Hu)
                               |(_ & Hcp & _ & _)]].
    + congruence.
    + rewrite Hcp.
      destruct (unbeaten_after_opponent fuel (board s) (otherMark h) idx)
        as [fuel' Hu']; try done.
      rewrite otherMark_involutive in Hu'.
      apply (makeMove_guarded h points s idx h fuel' true); auto.
    + exfalso. specialize (Hturn Hmode). rewrite Hcp, Hsym in Hturn.
      by destruct h.
  - (* a timer *)
    destruct (pendingAiMoves s) as [|k] eqn:Hk; [by intros [= <-]|].
    set (s1 := mkSession _ _ _ _ _ _ _ _ _ _ _ _ _ _ k).
    destruct Hg as (Hmode & Hlevel & Hsym & Hlen & Hpts & Hst & Hcases).
    destruct Hcases as [[Hr Hend]|[(_ & _ & Hpend & _)
                                  |(Hr & Hcp & Hpend & Hev & fuel & Hu)]].
    + rewrite aiMakeMove_not_running by done. intros [= <-].
      repeat (split; [done|]). left. done.
    + congruence.
    + assert (k = 0%nat) as -> by congruence.
      destruct (unbeaten_after_engine fuel (board s) (otherMark h) rnd Hev Hu)
        as (n & fuel' & Hmove & Hnull & Hu').
      unfold aiMakeMove.
      change (running s1) with (running s). rewrite Hr. cbn [negb].
      change (playerSymbol s1) with (playerSymbol s).
      change (aiLevel s1) with (aiLevel s).
      change (board s1) with (board s).
      rewrite Hsym, Hlevel, aiSymbol_of_playerSymbol.
      change (orElse (orElse "hard" (aiLevelSelect s1)) "easy")
        with "hard"%string.
      change (String.eqb "hard" "easy") with false.
      change (String.eqb "hard" "difficult") with false.
      cbv iota. rewrite Hmove.
      change (withBoard (board s) s1) with s1.
      rewrite (needsFallback_null (board s) n Hlen Hnull).
      intros [= <-].
      apply (makeMove_guarded h points s1 n (otherMark h) fuel' false); auto.
Qed.

Lemma startGame_guarded (h : Mark) (pre : Session) :
  modeSelect pre = "pvc"%string → aiLevelSelect pre = "hard"%string →
  playerSymbolSelect pre = markString h → pendingAiMoves pre = 0%nat →
  guarded h (tally h (scores pre)) (startGame pre).
Proof.
  intros Hmode Hlevel Hsym Hpend.
  unfold guarded, startGame.
  cbn [mode aiLevel playerSymbol board scores status running currentPlayer
       pendingAiMoves].
  rewrite Hmode, Hlevel, Hsym, Hpend.
  do 6 (split; [done|]). right.
  destruct h.
  - left. do 4 (split; [done|]). exists 10%nat. by vm_compute.
  - right. do 4 (split; [done|]). exists 10%nat. by vm_compute.
Qed.

(** X11.  A game played against the hard level from a fresh start, the
    human holding either mark and no AI move left over from before: whatever
    cells the human clicks and whenever the timers fire, the human's tally
    never grows, the status never announces a win of the human, and when
    the game is over its board is a draw or a line of the engine. *)
Theorem hard_level_is_never_beaten (h : Mark) (pre : Session)
    (es : list Event) :
  modeSelect pre = "pvc"%string →
  aiLevelSelect pre = "hard"%string →
  playerSymbolSelect pre = markString h →
  pendingAiMoves pre = 0%nat →
  Forall withinGame es →
  ∃ s, run (startGame pre) es = Some s
       ∧ tally h (scores s) = tally h (scores pre)
       ∧ status s ≠ Wins h
       ∧ (running s = false →
          evaluate (board s) = Draw
          ∨ ∃ l, evaluate (board s) = Win (otherMark h) l).
Proof.
  intros Hmode Hlevel Hsym Hpend Hes.
  assert (∀ s, guarded h (tally h (scores pre)) s →
               ∃ s', run s es = Some s' ∧ guarded h (tally h (scores pre)) s')
    as Hrun.
  { induction Hes as [|e es He Hes IH]; intros s Hs; simpl; [eauto|].
    destruct (step_total s e) as [s1 H1]. rewrite H1.
    apply IH. by eapply step_guarded. }
  destruct (Hrun (startGame pre)) as (s & Hs & Hg);
    [by apply startGame_guarded|].
  destruct Hg as (_ & _ & _ & _ & Hpts & Hst & Hcases).
  exists s. split; [done|]. split; [done|]. split; [done|].
  intros Hr. destruct Hcases as [[_ H]|[(Hr' & _)|(Hr' & _)]]; [done|..];
    congruence.
Qed.

Lemma hard_level_is_never_beaten_witness :
  ∃ s, run (startGame (initialSession "pvc" "hard" "X"))
           [CellClicked 0; TimerFired 0 0; CellClicked 8] = Some s
       ∧ tally X (scores s) = tally X (scores (initialSession "pvc" "hard" "X"))
       ∧ status s ≠ Wins X
       ∧ (running s = false →
          evaluate (board s) = Draw
          ∨ ∃ l, evaluate (board s) = Win (otherMark X) l).
Proof.
  apply (hard_level_is_never_beaten X (initialSession "pvc" "hard" "X")
           [CellClicked 0; TimerFired 0 0; CellClicked 8]);
    try reflexivity.
  repeat constructor.
Defined.

(** ** Keyboard navigation *)

Lemma cell_index_cases (idx : Z) :
  0 ≤ idx ≤ 8 →
  idx = 0 ∨ idx = 1 ∨ idx = 2 ∨ idx = 3 ∨ idx = 4
  ∨ idx = 5 ∨ idx = 6 ∨ idx = 7 ∨ idx = 8.
Proof. lia. Qed.

(** X12.  From a focused cell 0..8, whatever key is pressed, the cell that
    receives the focus is again one of 0..8.  The left and right arrows stay
    in the row, the up and down arrows stay in the column, and any other key
    leaves the focus where it is. *)
Theorem arrowTarget_stays_on_board (key : string) (idx : Z) :
  0 ≤ idx ≤ 8 →
  0 ≤ arrowTarget key idx ≤ 8
  ∧ arrowTarget "ArrowLeft" idx / 3 = idx / 3
  ∧ arrowTarget "ArrowRight" idx / 3 = idx / 3
  ∧ Z.rem (arrowTarget "ArrowUp" idx) 3 = Z.rem idx 3
  ∧ Z.rem (arrowTarget "ArrowDown" idx) 3 = Z.rem idx 3
  ∧ (key ≠ "ArrowLeft"%string → key ≠ "ArrowRight"%string →
     key ≠ "ArrowUp"%string → key ≠ "ArrowDown"%string →
     arrowTarget key idx = idx).
Proof.
  intros Hidx. split; [|split; [|split; [|split; [|split]]]].
  - unfold arrowTarget.
    destruct (String.eqb key "ArrowLeft"), (String.eqb key "ArrowRight"),
      (String.eqb key "ArrowUp"), (String.eqb key "ArrowDown");
      destruct (cell_index_cases idx Hidx)
        as [->|[->|[->|[->|[->|[->|[->|[->| ->]]]]]]]];
      by vm_compute.
  - destruct (cell_index_cases idx Hidx)
      as [->|[->|[->|[->|[->|[->|[->|[->| ->]]]]]]]]; by vm_compute.
  - destruct (cell_index_cases idx Hidx)
      as [->|[->|[->|[->|[->|[->|[->|[->| ->]]]]]]]]; by vm_compute.
  - destruct (cell_index_cases idx Hidx)
      as [->|[->|[->|[->|[->|[->|[->|[->| ->]]]]]]]]; by vm_compute.
  - destruct (cell_index_cases idx Hidx)
      as [->|[->|[->|[->|[->|[->|[->|[->| ->]]]]]]]]; by vm_compute.
  - intros H1%String.eqb_neq H2%String.eqb_neq H3%String.eqb_neq
           H4%String.eqb_neq.
    unfold arrowTarget. rewrite H1, H2, H3, H4.
    destruct (cell_index_cases idx Hidx)
      as [->|[->|[->|[->|[->|[->|[->|[->| ->]]]]]]]]; by vm_compute.
Qed.

Lemma arrowTarget_stays_on_board_witness :
  0 ≤ arrowTarget "ArrowLeft" 3 ≤ 8
  ∧ arrowTarget "ArrowLeft" 3 / 3 = 3 / 3.
Proof.
  pose proof (arrowTarget_stays_on_board "ArrowLeft" 3 ltac:(lia))
    as (H1 & H2 & _).
  exact (conj H1 H2).
Defined.

(** X16.  The arrows wrap around and undo each other: right after left,
    left after right, down after up and up after down all return to the
    cell one started from, and three presses of the same arrow as well. *)
Theorem arrows_undo_each_other (idx : Z) :
  0 ≤ idx ≤ 8 →
  arrowTarget "ArrowRight" (arrowTarget "ArrowLeft" idx) = idx
  ∧ arrowTarget "ArrowLeft" (arrowTarget "ArrowRight" idx) = idx
  ∧ arrowTarget "ArrowDown" (arrowTarget "ArrowUp" idx) = idx
  ∧ arrowTarget "ArrowUp" (arrowTarget "ArrowDown" idx) = idx
  ∧ (∀ key, arrowTarget key (arrowTarget key (arrowTarget key idx)) = idx).
Proof.
  intros Hidx. split; [|split; [|split; [|split]]].
  1-4: destruct (cell_index_cases idx Hidx)
         as [->|[->|[->|[->|[->|[->|[->|[->| ->]]]]]]]]; by vm_compute.
  intros key. unfold arrowTarget.
  destruct (String.eqb key "ArrowLeft"), (String.eqb key "ArrowRight"),
    (String.eqb key "ArrowUp"), (String.eqb key "ArrowDown");
    destruct (cell_index_cases idx Hidx)
      as [->|[->|[->|[->|[->|[->|[->|[->| ->]]]]]]]];
    by vm_compute.
Qed.

Lemma arrows_undo_each_other_witness :
  arrowTarget "ArrowRight" (arrowTarget "ArrowLeft" 6) = 6.
Proof.
  exact (proj1 (arrows_undo_each_other 6 ltac:(lia))).
Defined.

(** ** The move of the optimal strategy keeps the value of the game *)

Lemma bestOver_ext pick child1 child2 todo (b : Board) acc :
  (∀ i, i ∈ todo → b !! i = Some None → child1 i = child2 i) →
  bestOver pick child1 todo b acc = bestOver pick child2 todo b acc.
Proof.
  revert acc. induction todo as [|i rest IH]; intros acc H; simpl; [done|].
  destruct (isNull (b !! i)) eqn:Hn.
  - apply isNull_true in Hn. rewrite <- (H i); [|left|done].
    destruct (child1 i); [|done]. apply IH. intros j Hj. apply H. by right.
  - apply IH. intros j Hj. apply H. by right.
Qed.

(** More fuel than the number of empty cells changes nothing. *)
Lemma unprunedMinimax_fuel_more ai fuel :
  ∀ (b : Board) t d,
    (emptyCount b < fuel)%nat →
    unprunedMinimax_fuel (S fuel) b ai t d = unprunedMinimax_fuel fuel b ai t d.
Proof.
  induction fuel as [|fuel IH]; intros b t d Hlt; [lia|].
  rewrite (unprunedMinimax_fuel_S (S fuel)), (unprunedMinimax_fuel_S fuel).
  destruct (evaluate b); [|done|done].
  apply bestOver_ext. intros i Hi%in_cells Hn. apply IH.
  pose proof (emptyCount_write b i (if t then ai else otherMark ai) Hi Hn). lia.
Qed.

Lemma clamp_open_right a x : clamp a PosInf x = Score_max a x.
Proof. score_cases. Qed.

Lemma Score_max_eq_above a s v :
  Score_max a s = Score_max a v → Score_ltb a s = true → v = s.
Proof. intros; score_cases. Qed.

Lemma Score_leb_PosInf a : Score_leb PosInf a = true → a = PosInf.
Proof. intros; score_cases. Qed.

Lemma Score_leb_antisym a b :
  Score_leb a b = true → Score_leb b a = true → a = b.
Proof. intros; score_cases. Qed.

(** The maximising loop at the root, where [beta] is [Infinity]: the result
    carries the value of the reference fold, and the index of a successor
    that has exactly this value. *)
Lemma maxLoop_root rec child mark todo (b : Board) :
  (∀ i a, i ∈ todo → b !! i = Some None → Score_ltb a PosInf = true →
     ∃ r v, rec (write b i (Some mark)) a = Some (r, write b i (Some mark))
          ∧ child i = Some v
          ∧ clamp a PosInf (score r) = clamp a PosInf v) →
  ∀ best,
    Score_ltb (score best) PosInf = true →
    (score best = NegInf
     ∨ ∃ i, index best = INum (Z.of_nat i) ∧ b !! i = Some None
            ∧ child i = Some (score best)) →
    ∃ r, maxLoop rec mark PosInf todo best (score best) b = Some (r, b)
       ∧ bestOver Score_max child todo b (score best) = Some (score r)
       ∧ (score r = NegInf
          ∨ ∃ i, index r = INum (Z.of_nat i) ∧ b !! i = Some None
                 ∧ child i = Some (score r)).
Proof.
  induction todo as [|i rest IH]; intros Hrec best Hlt Hbest; simpl; [eauto|].
  assert (Hrest : ∀ j a, j ∈ rest → b !! j = Some None →
            Score_ltb a PosInf = true →
            ∃ r v, rec (write b j (Some mark)) a = Some (r, write b j (Some mark))
                 ∧ child j = Some v
                 ∧ clamp a PosInf (score r) = clamp a PosInf v)
    by (intros j a Hj; apply Hrec; by right).
  destruct (isNull (b !! i)) eqn:Hn; [|by apply IH].
  apply isNull_true in Hn.
  destruct (Hrec i (score best)) as (r0 & v0 & Hr & Hc & Hcl); [left|done|done|].
  rewrite Hr, Hc, write_undo by done.
  rewrite !clamp_open_right in Hcl.
  set (best' := if Score_ltb (score best) (score r0) then setIndex r0 i else best).
  assert (score best' = Score_max (score best) (score r0)) as Hs'
    by (apply score_pick_max; done).
  assert (score best' = NegInf
          ∨ ∃ j, index best' = INum (Z.of_nat j) ∧ b !! j = Some None
                 ∧ child j = Some (score best')) as Hbest'.
  { unfold best' in *. destruct (Score_ltb (score best) (score r0)) eqn:Hgt.
    - right. exists i. split; [done|]. split; [done|].
      rewrite Hc. f_equal. by apply (Score_max_eq_above (score best)).
    - done. }
  rewrite <- Hcl, <- Hs'.
  destruct (Score_leb PosInf (score best')) eqn:Hp.
  - exists best'. split; [done|]. split; [|done].
    apply Score_leb_PosInf in Hp.
    destruct (bestOver_max_total child rest b (score best')) as (V & -> & Hle).
    { intros j Hj Hnj.
      destruct (Hrest j (score best) Hj Hnj Hlt) as (? & v & _ & -> & _).
      by eexists. }
    f_equal. rewrite Hp in Hle |- *. by apply Score_leb_PosInf.
  - apply IH; [done|by apply Score_leb_false|done].
Qed.

Lemma unpruned_by_search (b : Board) ai t d z :
  (∃ r, minimax b ai (otherMark ai) t NegInf PosInf d = Some (r, b)
        ∧ score r = Fin z) →
  unprunedMinimax b ai t d = Some (Fin z).
Proof.
  intros (r & H & Hz).
  destruct (minimax_fuel_sound ai searchFuel b t NegInf PosInf d)
    as (r' & v & Hr & Hv & Hc); [|done|].
  { pose proof (emptyCount_le b). unfold searchFuel. lia. }
  unfold minimax in H. rewrite Hr in H. injection H as Heq.
  rewrite !clamp_open in Hc. unfold unprunedMinimax. rewrite Hv. congruence.
Qed.

Lemma all_null_is_emptyBoard (b : Board) :
  length b = 9%nat → forallb (fun cell => isNull (Some cell)) b = true →
  b = emptyBoard.
Proof.
  intros Hlen Hall. apply list_eq. intros i.
  destruct (decide (i < 9)%nat) as [Hi|Hi].
  - rewrite (all_null_lookup b i Hall) by lia.
    unfold emptyBoard. by rewrite lookup_replicate_2.
  - rewrite !lookup_ge_None_2; [done| |lia].
    unfold emptyBoard. rewrite length_replicate. lia.
Qed.

Lemma aiMinimaxMove_keeps_value (b : Board) ai rnd :
  length b = 9%nat → evaluate b = InProgress →
  ∃ i v, aiMinimaxMove b ai rnd = Some (INum (Z.of_nat i))
         ∧ b !! i = Some None
         ∧ unprunedMinimax b ai true 0 = Some v
         ∧ unprunedMinimax (write b i (Some ai)) ai false 1 = Some v.
Proof.
  intros Hlen Hev.
  destruct (forallb (fun cell => isNull (Some cell)) b) eqn:Hall.
  - (* the opening shortcut *)
    rewrite (all_null_is_emptyBoard b Hlen Hall), aiMinimaxMove_opening.
    assert (randomBelow rnd 4 < 4)%nat as Hlt
      by (unfold randomBelow; apply Nat.mod_upper_bound; lia).
    destruct (randomBelow rnd 4) as [|[|[|[|k]]]]; [..|lia];
      cbn [lookup list_lookup];
      eexists _, (Fin 0); (split; [reflexivity|]); (split; [reflexivity|]);
      (split; [|]);
      destruct ai; apply unpruned_by_search; eexists;
      (split; [vm_compute; reflexivity|reflexivity]).
  - (* the search *)
    unfold aiMinimaxMove. rewrite Hall. unfold minimax, searchFuel.
    rewrite minimax_fuel_S.
    rewrite (evaluate_InProgress_terminalScore b ai _ _ Hev).
    destruct (maxLoop_root
                (fun b' a => minimax_fuel 9 b' ai (otherMark ai) false a PosInf (0 + 1))
                (fun i => unprunedMinimax_fuel 9 (write b i (Some ai)) ai false (0 + 1))
                ai cells b) with (best := mkResult (INum (-1)) NegInf)
      as (r & Hr & HV & Hidx).
    + intros i a Hi%in_cells Hn Ha.
      apply minimax_fuel_sound; [|done].
      pose proof (emptyCount_write b i ai Hi Hn).
      pose proof (emptyCount_le b). lia.
    + done.
    + by left.
    + cbn [score] in Hr. rewrite Hr.
      assert (∃ z, score r = Fin z) as [z Hz].
      { destruct (minimax_fuel_finds ai (otherMark ai) 10)
          with (b := b) (isAi := true) (alpha := NegInf) (beta := PosInf)
               (depth := 0) as (r' & z & Hr' & Hz & _).
        - intros E. by apply (otherMark_ne ai).
        - done.
        - pose proof (emptyCount_le b). lia.
        - rewrite minimax_fuel_S in Hr'.
          rewrite (evaluate_InProgress_terminalScore b ai _ _ Hev) in Hr'.
          rewrite Hr in Hr'. injection Hr' as <-. eauto. }
      destruct Hidx as [Hinf|(i & Hi & Hn & Hchild)]; [congruence|].
      exists i, (score r). split; [by rewrite Hi|]. split; [done|].
      assert (i < 9)%nat as Hi9 by (apply lookup_lt_Some in Hn; lia).
      split.
      * unfold unprunedMinimax, searchFuel. rewrite unprunedMinimax_fuel_S, Hev.
        exact HV.
      * unfold unprunedMinimax, searchFuel.
        rewrite unprunedMinimax_fuel_more; [exact Hchild|].
        pose proof (emptyCount_write b i ai Hi9 Hn).
        pose proof (emptyCount_le b). lia.
Qed.

(** X17.  On every nine-cell board in progress, the cell [aiMinimaxMove]
    returns is empty and keeps the value of the game: the unpruned minimax
    value of the board after the engine's move there, with the opponent to
    move, equals the unpruned minimax value of the board before it.  This
    includes the empty board, where the move is a random corner. *)
Theorem aiMinimaxMove_is_optimal (b : Board) (aiSymbol : Mark) (rnd : nat) :
  length b = 9%nat →
  evaluate b = InProgress →
  ∃ i v, aiMinimaxMove b aiSymbol rnd = Some (INum (Z.of_nat i))
         ∧ b !! i = Some None
         ∧ unprunedMinimax b aiSymbol true 0 = Some v
         ∧ unprunedMinimax (write b i (Some aiSymbol)) aiSymbol false 1 = Some v.
Proof. apply aiMinimaxMove_keeps_value. Qed.

Lemma aiMinimaxMove_is_optimal_witness :
  let b := [Some X; None; None; None; None; None; None; None; None] in
  ∃ i v, aiMinimaxMove b O 0 = Some (INum (Z.of_nat i))
         ∧ b !! i = Some None
         ∧ unprunedMinimax b O true 0 = Some v
         ∧ unprunedMinimax (write b i (Some O)) O false 1 = Some v.
Proof.
  apply (aiMinimaxMove_is_optimal
           [Some X; None; None; None; None; None; None; None; None] O 0);
    reflexivity.
Defined.
